(** * godupes: the two-tier duplicate finder of [main.go]

    A shallow embedding of [main.go] and the properties its description
    states about it.

    Conventions of the embedding.
    - Go's [uint64], [int64] and [int] are [Z]; a conversion or an
      arithmetic step that can leave the type's range has its wrap-around
      written out ([uint64_of], [int_of]; [int] is taken to be 64 bits wide).
    - [map[uint64][]File] is [gmap Z (list File)]; a [range] over a map
      visits the entries in an order Go leaves open, so every loop over a
      map is a function of the visiting order, and is then shown not to
      depend on it.
    - The file system is an oracle ([FS]): what [os.Open], [Stat], [ReadAt]
      and [ioutil.ReadFile] answer for a path.
    - [metro.Hash64] belongs to an imported package; it is a parameter
      ([Hash64]) of everything that hashes.
    - A run-time panic is an outcome of its own ([Panics]), next to the
      values a function returns.
    - [sync.Mutex]: every method of a store is called from the main
      goroutine and pairs each [Lock] with an [Unlock] before it returns,
      so the mutex is free at every call and every return; it has no field
      in [PathStore]. *)

From stdpp Require Import gmap strings list fin_maps.
From Stdlib Require Import ZArith DecimalString Strings.Byte.

Local Open Scope Z_scope.

(** ** Values *)

(** [type File struct] *)
Record File := mkFile {
  path : string;
  size : Z;        (* uint64 *)
  bytesHash : Z;   (* uint64 *)
  fullHash : Z     (* uint64 *)
}.

#[global] Instance File_eq_dec : EqDecision File.
Proof. solve_decision. Defined.

(** [File{}], the zero value. *)
Definition File_zero : File := mkFile "" 0 0 0.

(** Go [error] values that the program meets. *)
Inductive error :=
| EOF                                 (* io.EOF *)
| PathError (op name msg : string)    (* *os.PathError *)
| errorString (msg : string).         (* errors.New(msg) *)

#[global] Instance error_eq_dec : EqDecision error.
Proof. solve_decision. Defined.

(** [e.Error()] *)
Definition Error (e : error) : string :=
  match e with
  | EOF => "EOF"
  | PathError op name msg => op +:+ " " +:+ name +:+ ": " +:+ msg
  | errorString msg => msg
  end.

(** What a call does: it returns, or the goroutine panics. *)
Inductive outcome (A : Type) :=
| Returns (a : A)
| Panics (msg : string).
Arguments Returns {A} a.
Arguments Panics {A} msg.

Definition uint64_of (z : Z) : Z := z mod 2 ^ 64.
Definition int_of (z : Z) : Z := (z + 2 ^ 63) mod 2 ^ 64 - 2 ^ 63.

(** [strconv.FormatInt(z, 10)] *)
Definition FormatInt10 (z : Z) : string := NilZero.string_of_int (Z.to_int z).

(** ** The file system *)

(** An opened file: what [Stat] and [pread] answer. *)
Record OpenFile := mkOpenFile {
  stat_size : option Z;        (* Stat().Size(); None when Stat fails *)
  content : list byte;         (* the bytes from offset 0 on *)
  read_fault : option string   (* Some msg: pread fails with this errno *)
}.

(** [os.Open]: the errno text, or the opened file. *)
Definition FS := string → string + OpenFile.

Definition os_Open (fs : FS) (name : string) : error + OpenFile :=
  match fs name with
  | inl msg => inl (PathError "open" name msg)
  | inr f => inr f
  end.

(** [make([]byte, n)] *)
Definition make_bytes (n : Z) : outcome (list byte) :=
  if n <? 0 then Panics "runtime error: makeslice: len out of range"
  else Returns (replicate (Z.to_nat n) x00).

(** [file.ReadAt(b, 0)]: the buffer afterwards and the error. An empty
    buffer returns at once (the read loop runs while [len(b) > 0]); the
    bytes read overwrite the front of [b], the rest of [b] is left as it
    was, and fewer than [len(b)] bytes read is [io.EOF]. *)
Definition ReadAt (f : OpenFile) (name : string) (b : list byte)
  : list byte * option error :=
  match b with
  | [] => (b, None)
  | _ =>
    match read_fault f with
    | Some msg => (b, Some (PathError "read" name msg))
    | None =>
      let got := take (length b) (content f) in
      (got ++ drop (length got) b,
       if bool_decide (length got < length b)%nat then Some EOF else None)
    end
  end.

(** [ioutil.ReadFile(name)] *)
Definition ReadFile (fs : FS) (name : string) : list byte * option error :=
  match os_Open fs name with
  | inl err => ([], Some err)
  | inr f =>
    match read_fault f with
    | Some msg => ([], Some (PathError "read" name msg))
    | None => (content f, None)
    end
  end.

(** The [n]-byte buffer [make] hands out, after a read without fault: the
    first [n] bytes of the file, and zeros where the file has ended. *)
Definition prefix_buffer (f : OpenFile) (n : nat) : list byte :=
  take n (content f) ++ replicate (n - length (content f)) x00.

(** [type PathStore struct] (without the mutex). A nil map reads like an
    empty one, and [pathsAdded] is only ever read. *)
Record PathStore := mkPathStore {
  paths : gmap Z (list File);
  bytesPerFile : Z;
  pathsAdded : gmap Z bool
}.

(** A method with a pointer receiver: the result and the receiver afterwards. *)
Definition method (A : Type) : Type := PathStore → A * PathStore.

(** [p.paths[k]] read as a slice: nil for an absent key. *)
Definition group (m : gmap Z (list File)) (k : Z) : list File :=
  default [] (m !! k).

(** The entries of a map in the order of [map_to_list]; a [range] may visit
    any permutation of them. *)
Definition entries (p : PathStore) : list (Z * list File) :=
  map_to_list (paths p).

(** ** Read-only methods of a store *)

(** [func (p *PathStore) AllPaths() []File], visiting the map in order [visit]. *)
Definition AllPaths_visiting (visit : list (Z * list File)) : list File :=
  concat visit.*2.
Definition AllPaths (p : PathStore) : list File := AllPaths_visiting (entries p).

(** [func (p *PathStore) EmptyFiles() []File] *)
Definition EmptyFiles_visiting (visit : list (Z * list File)) : list File :=
  filter (λ f, size f = 0) (concat visit.*2).
Definition EmptyFiles (p : PathStore) : list File := EmptyFiles_visiting (entries p).

(** [func (p *PathStore) FileCount() int64]: [count += len(v)] for each entry. *)
Definition FileCount_visiting (visit : list (Z * list File)) : Z :=
  foldl (λ count kv, int_of (count + Z.of_nat (length kv.2))) 0 visit.
Definition FileCount (p : PathStore) : Z := FileCount_visiting (entries p).

(** [func (p *PathStore) FileSetCount() int64]: [len(p.paths)]. *)
Definition FileSetCount (p : PathStore) : Z := Z.of_nat (base.size (paths p)).

(** The loop of [Prune]: [newStore.paths[k] = v] when [len(v) > 1]. *)
Definition Prune_loop (visit : list (Z * list File)) (acc : gmap Z (list File))
  : gmap Z (list File) :=
  foldl (λ acc kv, if bool_decide (1 < length kv.2)%nat
                   then <[kv.1 := kv.2]> acc else acc) acc visit.

(** [func (p *PathStore) Prune() *PathStore], visiting the map in order
    [visit]: the new store, and the receiver afterwards. *)
Definition Prune_visiting (visit : list (Z * list File)) : method PathStore := λ p,
  (mkPathStore (Prune_loop visit ∅) (bytesPerFile p) ∅, p).
Definition Prune : method PathStore := λ p, Prune_visiting (entries p) p.

(** The loop of [TotalSizeDups]:
    [total += (len(v) - 1) * int(v[0].size)]; [v[0]] of an empty slice
    panics. *)
Fixpoint TotalSizeDups_loop (visit : list (Z * list File)) (total : Z) : outcome Z :=
  match visit with
  | [] => Returns total
  | (_, v) :: rest =>
    match v with
    | [] => Panics "runtime error: index out of range [0] with length 0"
    | v0 :: _ =>
      TotalSizeDups_loop rest
        (int_of (total + int_of ((Z.of_nat (length v) - 1) * int_of (size v0))))
    end
  end.

(** [func (p *PathStore) TotalSizeDups() int64] *)
Definition TotalSizeDups_visiting (visit : list (Z * list File)) : outcome Z :=
  TotalSizeDups_loop visit 0.
Definition TotalSizeDups (p : PathStore) : outcome Z :=
  TotalSizeDups_visiting (entries p).

(** The three numbers of [Summarize] as strings: [numFiles], [numSets],
    [sizeMegabytes]. Go's [/] on [int64] truncates towards zero. *)
Definition sizeMegabytes (total : Z) : string := FormatInt10 (total ÷ (1024 * 1024)).

(** [func (p *PathStore) Summarize() string] *)
Definition Summarize (p : PathStore) : outcome string :=
  let numFiles := FormatInt10 (FileCount p) in
  let numSets := FormatInt10 (FileSetCount p) in
  match TotalSizeDups p with
  | Panics m => Panics m
  | Returns total =>
    Returns (numFiles +:+ " files (in " +:+ numSets +:+ " sets), occupying "
             +:+ sizeMegabytes total +:+ " megabytes")
  end.

(** ** The process: what it prints and how it stops *)

Inductive halt :=
| Exited (code : Z)       (* os.Exit(code) *)
| Crashed (msg : string). (* a panic nobody recovers *)

(** A piece of the program: the lines it prints on standard output, and
    then either the process has stopped or a value is handed on. *)
Definition proc (A : Type) : Type := list string * (halt + A).

Definition proc_ret {A} (a : A) : proc A := ([], inr a).
Definition proc_bind {A B} (m : proc A) (k : A → proc B) : proc B :=
  match m with
  | (out, inl h) => (out, inl h)
  | (out, inr a) => let '(out', r) := k a in (out ++ out', r)
  end.

Notation "'let*' x := m 'in' k" := (proc_bind m (λ x, k))
  (at level 10, x name, m at level 100, k at level 200, only parsing).
Notation "m 'then*' k" := (proc_bind m (λ _, k))
  (at level 100, k at level 200, right associativity, only parsing).

(** [fmt.Println(s)] *)
Definition Println (s : string) : proc unit := ([s], inr tt).
(** [os.Exit(code)] *)
Definition os_Exit {A} (code : Z) : proc A := ([], inl (Exited code)).
(** [func errOut(e error)] *)
Definition errOut {A} (e : error) : proc A := Println (Error e) then* os_Exit 1.
(** A call made from the main goroutine. *)
Definition call {A} (o : outcome A) : proc A :=
  match o with
  | Returns a => proc_ret a
  | Panics m => ([], inl (Crashed m))
  end.

(** The command line, after [flag.Parse]. *)
Record Flags := mkFlags {
  flag_stdin : bool;
  flag_path : string;
  flag_workers : Z;
  flag_bytes : Z;
  flag_summarize : bool
}.

(** The flags' defaults; [numCPU] is [runtime.NumCPU()]. *)
Definition Flags_default (numCPU : Z) : Flags :=
  mkFlags false "" (2 * numCPU) 4096 false.

(** [os.FileInfo], as far as [fileCheck] looks at it. *)
Record FileInfo := mkFileInfo {
  IsDir : bool;
  ModeSymlink : bool   (* Mode() & os.ModeSymlink == os.ModeSymlink *)
}.

(** What the process runs in: the file system, the calls [filepath.Walk]
    makes to its walk function from a starting path (a path with its
    [FileInfo], or with the error of looking at it), and the lines the
    scanner reads from standard input. *)
Record Env := mkEnv {
  env_fs : FS;
  env_walk : string → list (string * (error + FileInfo));
  env_stdin : list string
}.

(** [func fileCheck(paths *[]string, path string, info os.FileInfo, err error) error]:
    the slice afterwards; the error returned is always nil. *)
Definition fileCheck (paths : list string) (path : string) (arg : error + FileInfo)
  : list string :=
  match arg with
  | inl _ => paths
  | inr info => if IsDir info || ModeSymlink info then paths else paths ++ [path]
  end.

(** [func dirWalk(start string) ([]string, error)]: the walk function never
    returns an error, so [filepath.Walk] visits everything and returns nil. *)
Definition dirWalk (env : Env) (start : string) : list string * option error :=
  (foldl (λ paths c, fileCheck paths c.1 c.2) [] (env_walk env start), None).

Section Hashing.

(** [metro.Hash64(buffer, seed)] *)
Context (Hash64 : list byte → Z → Z).

Section OnFS.
Context (fs : FS).

(** [func FileFromPath(path string, buffSize int) (File, error)].
    [file.Stat()] on the nil file of a failed [os.Open] returns an error
    that is dropped, like every error of [Stat]; [stats] is then nil and
    [stats.Size()] panics. *)
Definition FileFromPath (path : string) (buffSize : Z)
  : outcome (File * option error) :=
  match make_bytes buffSize with
  | Panics m => Panics m
  | Returns firstBytes =>
    match os_Open fs path with
    | inl err => Returns (File_zero, Some err)
    | inr file =>
      let stats := stat_size file in
      let '(firstBytes, err) := ReadAt file path firstBytes in
      match err with
      | Some (PathError _ _ _ as e) | Some (errorString _ as e) =>
          Returns (File_zero, Some e)
      | Some EOF | None =>
        match stats with
        | None => Panics "runtime error: invalid memory address or nil pointer dereference"
        | Some sz =>
          Returns (mkFile path (uint64_of sz) (Hash64 firstBytes 0) 0, None)
        end
      end
    end
  end.

(** [func (p *PathStore) PathAdded(path string) bool] *)
Definition PathAdded (p : PathStore) (path : string) : bool :=
  match pathsAdded p !! Hash64 (String.list_byte_of_string path) 0 with
  | Some _ => true
  | None => false
  end.

(** [func (p *PathStore) AddFile(s string) error] *)
Definition AddFile (s : string) : method (outcome (option error)) := λ p,
  if PathAdded p s then (Returns (Some (errorString "Path already present")), p)
  else
    match FileFromPath s (bytesPerFile p) with
    | Panics m => (Panics m, p)
    | Returns (_, Some err) => (Returns (Some err), p)
    | Returns (f, None) =>
      (Returns None,
       mkPathStore (<[bytesHash f := group (paths p) (bytesHash f) ++ [f]]> (paths p))
                   (bytesPerFile p) (pathsAdded p))
    end.

(** The loop of [NewPathStore]: [store.AddFile(p)] for each path, leaving at
    the first error. *)
Fixpoint NewPathStore_loop (ps : list string) (store : PathStore)
  : outcome (PathStore * option error) :=
  match ps with
  | [] => Returns (store, None)
  | p :: ps' =>
    match AddFile p store with
    | (Panics m, _) => Panics m
    | (Returns (Some err), store') => Returns (store', Some err)
    | (Returns None, store') => NewPathStore_loop ps' store'
    end
  end.

(** [func NewPathStore(paths []string, bytesPerFile int)], returning the store
    and the error. *)
Definition NewPathStore (ps : list string) (bytesPerFile : Z)
  : outcome (PathStore * option error) :=
  NewPathStore_loop ps (mkPathStore ∅ bytesPerFile ∅).

(** ** The hashing stage of [main]: goroutines and channels

    [hashq] and [resultq] are unbuffered, so a send and its receive are one
    step. A worker is at its [range inq] ([Waiting]), or has taken a file
    and has [ReadFile], [Hash64] and [res <- f] ahead of it ([Holding]), or
    has left its loop and called [wg.Done()] ([Returned]). *)
Inductive worker :=
| Waiting
| Holding (f : File)
| Returned.

Record pool := mkPool {
  feeding : list File;          (* what is still to be sent on hashq *)
  unspawned : nat;              (* iterations left of main's spawning loop *)
  workers : list worker;        (* the workers spawned so far *)
  closed : bool;                (* close(resultq) has happened *)
  hashed : gmap Z (list File)   (* hashed.paths *)
}.

(** [f.fullHash = metro.Hash64(data, 0)] on the worker's copy of [f]. *)
Definition with_fullHash (f : File) (data : list byte) : File :=
  mkFile (path f) (size f) (bytesHash f) (Hash64 data 0).

Inductive pool_step : pool → pool → Prop :=
| step_spawn q n ws c h :
    (* wg.Add(1); go hashWorker(hashq, resultq, &wg) *)
    pool_step (mkPool q (S n) ws c h) (mkPool q n (ws ++ [Waiting]) c h)
| step_take f q n ws c h i :
    (* hashq <- f meets a worker's range inq *)
    ws !! i = Some Waiting →
    pool_step (mkPool (f :: q) n ws c h) (mkPool q n (<[i := Holding f]> ws) c h)
| step_result q ws h i f data :
    (* the worker's res <- f meets main's range resultq, which runs once
       the spawning loop is over; main files the record under its fullHash *)
    ws !! i = Some (Holding f) →
    ReadFile fs (path f) = (data, None) →
    pool_step (mkPool q 0 ws false h)
      (mkPool q 0 (<[i := Waiting]> ws) false
         (<[Hash64 data 0 := group h (Hash64 data 0) ++ [with_fullHash f data]]> h))
| step_return n ws c h i :
    (* close(hashq) has ended the worker's loop: wg.Done() *)
    ws !! i = Some Waiting →
    pool_step (mkPool [] n ws c h) (mkPool [] n (<[i := Returned]> ws) c h)
| step_close q n ws h :
    (* wg.Wait() finds the counter at zero; close(resultq) *)
    Forall (λ w, w = Returned) ws →
    pool_step (mkPool q n ws false h) (mkPool q n ws true h).

(** How the stage ends for the process: main's [range resultq] ends on the
    closed channel and hands [hashed.paths] on; or a worker's [ReadFile]
    fails and [errOut] stops the process; or a worker sends on the closed
    [resultq]; or the wait group panics. The last can happen because
    [wg.Wait()] is started before the loop of [wg.Add(1)]: when every worker
    spawned so far has called [wg.Done()] while main has workers left to
    spawn, the counter is back at zero with the waiter not yet through, and
    the next [wg.Add(1)] meets it; package [sync] then panics in [Add] or
    in [Wait]. *)
Inductive pool_ends : pool → proc (gmap Z (list File)) → Prop :=
| ends_range q ws h :
    pool_ends (mkPool q 0 ws true h) ([], inr h)
| ends_errOut q n ws c h i f data e :
    ws !! i = Some (Holding f) →
    ReadFile fs (path f) = (data, Some e) →
    pool_ends (mkPool q n ws c h) (errOut e)
| ends_send_closed q n ws h i f data :
    ws !! i = Some (Holding f) →
    ReadFile fs (path f) = (data, None) →
    pool_ends (mkPool q n ws true h) ([], inl (Crashed "send on closed channel"))
| ends_WaitGroup q n ws h msg :
    ws ≠ [] →
    Forall (λ w, w = Returned) ws →
    msg = "sync: WaitGroup is reused before previous Wait has returned"
    ∨ msg = "sync: WaitGroup misuse: Add called concurrently with Wait" →
    pool_ends (mkPool q (S n) ws false h) ([], inl (Crashed msg)).

(** The stage from its start: the feeding goroutine ranges over
    [newStore.paths] in some order [visit] and over each slice in order. *)
Definition pool_init (visit : list (Z * list File)) (numWorkers : Z) : pool :=
  mkPool (concat visit.*2) (Z.to_nat numWorkers) [] false ∅.

Definition pool_reaches (newStore : PathStore) (numWorkers : Z) (s : pool) : Prop :=
  ∃ visit, visit ≡ₚ entries newStore ∧ rtc pool_step (pool_init visit numWorkers) s.

Definition hashing (newStore : PathStore) (numWorkers : Z)
    (r : proc (gmap Z (list File))) : Prop :=
  ∃ s, pool_reaches newStore numWorkers s ∧ pool_ends s r.

(** What holds of every record the stage has in hand, given that it holds
    of every record fed to it: [Q] of the records still to be sent and of
    the records the workers hold, and every record filed by main is a
    record with [Q], with its [fullHash] set to the hash of its file's
    content, under that hash. *)
Definition pool_inv (Q : File → Prop) (s : pool) : Prop :=
  Forall Q (feeding s)
  ∧ (∀ i f, workers s !! i = Some (Holding f) → Q f)
  ∧ (∀ k g f', hashed s !! k = Some g → f' ∈ g →
       ∃ f data, Q f ∧ ReadFile fs (path f) = (data, None)
                 ∧ f' = with_fullHash f data ∧ k = Hash64 data 0).

End OnFS.

(** ** [main] *)
Section Main.
Context (flags : Flags) (env : Env).

(** The loop of [fromSTDIn]: [themap.AddFile(scr.Text())] for each line.
    [errOut] stops the process, so nothing follows it. *)
Fixpoint fromSTDIn_loop (lines : list string) (themap : PathStore) : proc PathStore :=
  match lines with
  | [] => proc_ret themap
  | l :: rest =>
    match AddFile (env_fs env) l themap with
    | (Panics m, _) => call (Panics m)
    | (Returns (Some err), _) => errOut err
    | (Returns None, themap') => fromSTDIn_loop rest themap'
    end
  end.

(** [func fromSTDIn() *PathStore]. [themap] is
    [PathStore{paths: make(map[uint64][]File)}]: its [bytesPerFile] is the
    zero value. *)
Definition fromSTDIn : proc PathStore :=
  let* themap := fromSTDIn_loop (env_stdin env) (mkPathStore ∅ 0 ∅) in
  proc_ret (Prune themap).1.

(** [bytesMatch] of [main], by the input mode. *)
Definition main_bytesMatch : proc PathStore :=
  if flag_stdin flags then
    Println "getting paths from stdin" then*
    fromSTDIn
  else
    let '(paths, err) := dirWalk env (flag_path flags) in
    (match err with Some e => errOut e | None => proc_ret tt end) then*
    let* r := call (NewPathStore (env_fs env) paths (flag_bytes flags)) in
    let '(bytesMatch, err) := r in
    (match err with Some e => errOut e | None => proc_ret tt end) then*
    proc_ret bytesMatch.

(** [main] up to the start of the goroutines: the two stores. *)
Definition main_screening : proc (PathStore * PathStore) :=
  (if flag_stdin flags && negb (String.eqb (flag_path flags) "")
   then Println "Only one of -path or -stdin may be used" then* os_Exit 1
   else proc_ret tt) then*
  let* bytesMatch := main_bytesMatch in
  let* s := call (Summarize bytesMatch) in
  Println s then*
  let newStore := (Prune bytesMatch).1 in
  let* s := call (Summarize newStore) in
  Println s then*
  Println "got the hashed map" then*
  proc_ret (bytesMatch, newStore).

(** [main] after [range resultq]: [hashed] is
    [PathStore{paths: make(map[uint64][]File)}] with the records filed. *)
Definition main_report (hashed_paths : gmap Z (list File)) : proc unit :=
  let hashedStore := (Prune (mkPathStore hashed_paths 0 ∅)).1 in
  if flag_summarize flags then
    let* s := call (Summarize hashedStore) in
    Println s
  else proc_ret tt.

(** [func main()] from the return of [flag.Parse()] on: the runs of the
    process with the flags parsed. What package [flag] does with a command
    line it refuses, or with [-h], comes before and is no part of it. *)
Inductive main_run : proc unit → Prop :=
| main_stops out h :
    main_screening = (out, inl h) →
    main_run (out, inl h)
| main_hashes out bytesMatch newStore r :
    main_screening = (out, inr (bytesMatch, newStore)) →
    hashing (env_fs env) newStore (flag_workers flags) r →
    main_run (main_screening then* let* h := r in main_report h).

End Main.
End Hashing.

(** The bytes [FileFromPath] hands to [Hash64] for a path that opens: the
    buffer of [buffSize] bytes after [ReadAt]. *)
Definition screening_bytes (fs : FS) (path : string) (buffSize : Z) : list byte :=
  match fs path with
  | inr file => prefix_buffer file (Z.to_nat buffSize)
  | inl _ => []
  end.

(** A record of a group of at least two records of a store. *)
Definition in_group_of_two (p : PathStore) (f : File) : Prop :=
  ∃ k g, paths p !! k = Some g ∧ f ∈ g ∧ (2 ≤ length g)%nat.

(** ** The quantity [TotalSizeDups] is described by

    For each group, its length less one times the size of its first record,
    summed over the groups, in unbounded integers. *)
Definition group_dup_bytes (v : list File) : Z :=
  (Z.of_nat (length v) - 1) * size (hd File_zero v).

Definition Zsum (l : list Z) : Z := foldr Z.add 0 l.

Definition duplicated_bytes (p : PathStore) : Z :=
  Zsum (map (λ kv, group_dup_bytes kv.2) (entries p)).

(** ** Listings used to state what the stores and the pool hold *)

(** The records of a map, group after group, in the order of [map_to_list]:
    what [AllPaths] returns for that order. *)
Definition all_records (m : gmap Z (list File)) : list File :=
  concat (map_to_list m).*2.

(** The records the workers hold. *)
Definition held (ws : list worker) : list File :=
  omap (λ w, match w with Holding f => Some f | _ => None end) ws.

(** What [FileFromPath] fixes of a record; the hashing stage leaves it as
    it is and sets [fullHash]. *)
Definition identity (f : File) : string * Z * Z := (path f, size f, bytesHash f).

(** The entries [fileCheck] keeps: no error, no directory, no symbolic link. *)
Definition walk_keeps (c : string * (error + FileInfo)) : bool :=
  match c.2 with
  | inl _ => false
  | inr info => negb (IsDir info || ModeSymlink info)
  end.

(** The paths [main] files and the buffer size it files them with, by the
    mode: the lines of standard input with [bytesPerFile] left at zero, or
    the walked paths with the [-bytes] flag. *)
Definition main_inputs (flags : Flags) (env : Env) : list string :=
  if flag_stdin flags then env_stdin env else (dirWalk env (flag_path flags)).1.
Definition main_buffSize (flags : Flags) : Z :=
  if flag_stdin flags then 0 else flag_bytes flags.
Definition main_banner (flags : Flags) : list string :=
  if flag_stdin flags then ["getting paths from stdin"] else [].

(** ** A sample hash and a sample environment

    The theorems below hold for every [Hash64]; to run the definitions on
    concrete inputs a hash is needed, and FNV-1a stands in. *)

Definition sample_Hash64 (buffer : list byte) (seed : Z) : Z :=
  foldl (λ h b, (Z.lxor h (Z.of_N (Byte.to_N b)) * 1099511628211) mod 2 ^ 64)
        ((14695981039346656037 + seed) mod 2 ^ 64) buffer.

Definition regular_file (s : string) : string + OpenFile :=
  let data := String.list_byte_of_string s in
  inr (mkOpenFile (Some (Z.of_nat (length data))) data None).

(** Regular files ([A] and [B] alike, [D] and [E] alike in their first five
    bytes only), a directory, and a file whose [Stat] fails. *)
Definition sample_fs : FS := λ name,
  if String.eqb name "A" then regular_file "hello"
  else if String.eqb name "B" then regular_file "hello"
  else if String.eqb name "C" then regular_file "world"
  else if String.eqb name "D" then regular_file "hello world"
  else if String.eqb name "E" then regular_file "hello there!"
  else if String.eqb name "dir" then inr (mkOpenFile (Some 4096) [] (Some "is a directory"))
  else if String.eqb name "nostat" then inr (mkOpenFile None [] None)
  else inl "no such file or directory".

(** Three files for which [Stat] reports 2^62 bytes and whose first eight
    bytes are zero. *)
Definition huge_fs : FS := λ name,
  if String.eqb name "X" || String.eqb name "Y" || String.eqb name "Z"
  then inr (mkOpenFile (Some (2 ^ 62)) (replicate 8 x00) None)
  else inl "no such file or directory".

(** Standard input naming a path that does not exist between two that do,
    and standard input naming the file whose [Stat] fails. *)
Definition sample_env_missing : Env := mkEnv sample_fs (λ _, []) ["A"; "zz"; "B"].
Definition sample_env_nostat : Env := mkEnv sample_fs (λ _, []) ["A"; "nostat"].

(** The bytes of "hello", and the same in a buffer of eight bytes. *)
Definition hello : list byte :=
  Eval vm_compute in String.list_byte_of_string "hello".
Definition hello_padded : list byte :=
  Eval vm_compute in String.list_byte_of_string "hello" ++ replicate 3 x00.

Definition sample_env : Env :=
  mkEnv sample_fs
        (λ start, [(start, inr (mkFileInfo true false));
                   ("A", inr (mkFileInfo false false));
                   ("B", inr (mkFileInfo false false));
                   ("C", inr (mkFileInfo false false))])
        ["A"; "B"; "C"].

(** A run on the sample environment: the directory mode with one worker
    and a prefix of eight bytes. [A] and [B] share a group of [bytesMatch];
    [C] is alone in its group. *)
Definition sample_flags (summarize : bool) : Flags := mkFlags false "." 1 8 summarize.
Definition sample_A : File := mkFile "A" 5 (sample_Hash64 hello_padded 0) 0.
Definition sample_B : File := mkFile "B" 5 (sample_Hash64 hello_padded 0) 0.
Definition sample_C : File :=
  mkFile "C" 5
    (sample_Hash64 (String.list_byte_of_string "world" ++ replicate 3 x00) 0) 0.
Definition sample_bytesMatch : PathStore :=
  mkPathStore {[bytesHash sample_A := [sample_A; sample_B];
                bytesHash sample_C := [sample_C]]} 8 ∅.
Definition sample_newStore : PathStore :=
  mkPathStore {[bytesHash sample_A := [sample_A; sample_B]]} 8 ∅.
Definition sample_hashed : gmap Z (list File) :=
  {[sample_Hash64 hello 0 := [with_fullHash sample_Hash64 sample_A hello;
                              with_fullHash sample_Hash64 sample_B hello]]}.

(** * Properties *)

(** ** The identity extractor, [FileFromPath] *)

Lemma ReadAt_zeroed (f : OpenFile) (name : string) (n : nat) :
  read_fault f = None →
  ReadAt f name (replicate n x00)
  = (prefix_buffer f n,
     if bool_decide (length (content f) < n)%nat then Some EOF else None).
Proof.
  intros Hf. unfold ReadAt, prefix_buffer. destruct n as [|n].
  { cbn [replicate]. rewrite bool_decide_eq_false_2 by lia. by rewrite take_0. }
  rewrite Hf. cbn [replicate]. change (x00 :: replicate n x00) with (replicate (S n) x00).
  rewrite length_replicate, length_take, drop_replicate. f_equal.
  - f_equal. f_equal. lia.
  - erewrite bool_decide_ext; [done | lia].
Qed.

Lemma ReadAt_fault (f : OpenFile) (name msg : string) (b : list byte) :
  read_fault f = Some msg → b ≠ [] →
  ReadAt f name b = (b, Some (PathError "read" name msg)).
Proof. intros Hf Hb. unfold ReadAt. destruct b; [done|]. by rewrite Hf. Qed.

Lemma prefix_buffer_length (f : OpenFile) (n : nat) : length (prefix_buffer f n) = n.
Proof. unfold prefix_buffer. rewrite length_app, length_take, length_replicate. lia. Qed.

Lemma prefix_buffer_short (f : OpenFile) (n : nat) :
  (length (content f) ≤ n)%nat →
  prefix_buffer f n = content f ++ replicate (n - length (content f)) x00.
Proof. intros H. unfold prefix_buffer. by rewrite take_ge. Qed.

Section ExtractorFacts.
Context (Hash64 : list byte → Z → Z) (fs : FS).

(** What [FileFromPath] does, case by case. *)
Lemma FileFromPath_negative path N :
  N < 0 → FileFromPath Hash64 fs path N = Panics "runtime error: makeslice: len out of range".
Proof.
  intros H. unfold FileFromPath, make_bytes.
  by rewrite (proj2 (Z.ltb_lt N 0) H).
Qed.

Lemma FileFromPath_open_error path N msg :
  0 ≤ N → fs path = inl msg →
  FileFromPath Hash64 fs path N = Returns (File_zero, Some (PathError "open" path msg)).
Proof.
  intros H Hfs. unfold FileFromPath, make_bytes, os_Open.
  rewrite (proj2 (Z.ltb_ge N 0) H), Hfs. done.
Qed.

Lemma FileFromPath_read_error path N file msg :
  0 < N → fs path = inr file → read_fault file = Some msg →
  FileFromPath Hash64 fs path N = Returns (File_zero, Some (PathError "read" path msg)).
Proof.
  intros H Hfs Hf. unfold FileFromPath, make_bytes, os_Open.
  rewrite (proj2 (Z.ltb_ge N 0)), Hfs by lia.
  rewrite (ReadAt_fault _ _ msg); [done..|].
  destruct (Z.to_nat N) eqn:E; [lia | done].
Qed.

Lemma FileFromPath_read path N file :
  0 ≤ N → fs path = inr file → (read_fault file = None ∨ N = 0) →
  FileFromPath Hash64 fs path N
  = match stat_size file with
    | None => Panics "runtime error: invalid memory address or nil pointer dereference"
    | Some sz =>
      Returns (mkFile path (uint64_of sz)
                 (Hash64 (prefix_buffer file (Z.to_nat N)) 0) 0, None)
    end.
Proof.
  intros H Hfs Hf. unfold FileFromPath, make_bytes, os_Open.
  rewrite (proj2 (Z.ltb_ge N 0) H), Hfs.
  destruct Hf as [Hf | ->].
  - rewrite ReadAt_zeroed by done. by case_bool_decide.
  - simpl. by destruct (stat_size file).
Qed.

(** A file that opens and reads, and whose [Stat] fails: the dropped error
    leaves [stats] nil, and [stats.Size()] panics. *)
Lemma FileFromPath_stat_failure path N file :
  0 ≤ N → fs path = inr file → (read_fault file = None ∨ N = 0) →
  stat_size file = None →
  FileFromPath Hash64 fs path N
  = Panics "runtime error: invalid memory address or nil pointer dereference".
Proof. intros HN Hfs Hf Hst. by rewrite (FileFromPath_read _ _ file), Hst. Qed.

End ExtractorFacts.

(** C4, as amended. For a regular file shorter than the prefix length [N],
    [FileFromPath] returns no error, and the prefix digest is [Hash64] of
    an [N]-byte buffer: the bytes of the file followed by zeros up to
    length [N]. *)
Theorem FileFromPath_short_file
    (Hash64 : list byte → Z → Z) (fs : FS) (path : string) (N : Z) (file : OpenFile) :
  fs path = inr file →
  read_fault file = None →
  stat_size file = Some (Z.of_nat (length (content file))) →
  Z.of_nat (length (content file)) < N →
  FileFromPath Hash64 fs path N
  = Returns
      (mkFile path (uint64_of (Z.of_nat (length (content file))))
         (Hash64 (content file
                  ++ replicate (Z.to_nat N - length (content file)) x00) 0) 0,
       None)
  ∧ length (content file
            ++ replicate (Z.to_nat N - length (content file)) x00) = Z.to_nat N.
Proof.
  intros Hfs Hf Hstat Hlt. split.
  - rewrite (FileFromPath_read _ _ _ _ file) by (auto; lia).
    rewrite Hstat, prefix_buffer_short by lia. done.
  - rewrite length_app, length_replicate. lia.
Qed.

Lemma FileFromPath_short_file_witness :
  FileFromPath sample_Hash64 sample_fs "A" 8
  = Returns
      (mkFile "A" (uint64_of 5)
         (sample_Hash64 (String.list_byte_of_string "hello" ++ replicate 3 x00) 0) 0,
       None)
  ∧ length (String.list_byte_of_string "hello" ++ replicate 3 x00) = 8%nat.
Proof.
  apply (FileFromPath_short_file sample_Hash64 sample_fs "A" 8
           (mkOpenFile (Some 5) (String.list_byte_of_string "hello") None));
    [reflexivity | reflexivity | reflexivity | simpl; lia].
Defined.

(** C4 as stated fails: for the five-byte file [A] and [N = 8] the digest is
    [Hash64] of eight bytes, whatever [Hash64] is, and these are not the
    bytes of the file; so it is not the digest of the file's bytes for every
    hash. *)
Lemma FileFromPath_short_file_not_exact :
  (∀ Hash64 : list byte → Z → Z,
     FileFromPath Hash64 sample_fs "A" 8
     = Returns
         (mkFile "A" 5
            (Hash64 (String.list_byte_of_string "hello" ++ [x00; x00; x00]) 0) 0,
          None))
  ∧ String.list_byte_of_string "hello" ++ [x00; x00; x00]
    ≠ String.list_byte_of_string "hello"
  ∧ ¬ (∀ (Hash64 : list byte → Z → Z) (f : File),
         FileFromPath Hash64 sample_fs "A" 8 = Returns (f, None) →
         bytesHash f = Hash64 (String.list_byte_of_string "hello") 0).
Proof.
  split; [done | split; [done |]].
  intros H. specialize (H sample_Hash64 _ eq_refl). vm_compute in H. done.
Qed.

(** C6, as amended. Take a path whose file, if it opens, has a size that
    [Stat] can give. [FileFromPath] returns an error exactly when [os.Open]
    fails, or the file opens and reading a non-empty prefix fails for
    another reason than the end of the file; when the file opens and the
    read meets no such fault, it returns a record and no error, however
    short the file is. *)
Theorem FileFromPath_error_iff
    (Hash64 : list byte → Z → Z) (fs : FS) (path : string) (N : Z) :
  0 ≤ N →
  (∀ file, fs path = inr file → is_Some (stat_size file)) →
  (∀ e : error,
     (∃ f, FileFromPath Hash64 fs path N = Returns (f, Some e))
     ↔ (os_Open fs path = inl e
        ∨ ∃ file msg, fs path = inr file ∧ 0 < N
                      ∧ read_fault file = Some msg
                      ∧ e = PathError "read" path msg))
  ∧ (∀ file,
       fs path = inr file → read_fault file = None →
       ∃ f, FileFromPath Hash64 fs path N = Returns (f, None)
            ∧ bytesHash f = Hash64 (prefix_buffer file (Z.to_nat N)) 0).
Proof.
  intros HN Hstat. split.
  - intros e. destruct (fs path) as [msg | file] eqn:Hfs.
    { rewrite (FileFromPath_open_error _ _ _ _ msg) by done.
      unfold os_Open. rewrite Hfs. split.
      - intros [f [= <- <-]]. auto.
      - intros [[= <-] | (? & ? & ? & _)]; [eauto | done]. }
    unfold os_Open. rewrite Hfs.
    destruct (Hstat file eq_refl) as [sz Hsz].
    destruct (read_fault file) as [msg |] eqn:Hf; [destruct (decide (N = 0)) as [-> | HN0] |].
    + rewrite (FileFromPath_read _ _ _ _ file) by auto. rewrite Hsz.
      split; [by intros [? ?] |].
      intros [? | (? & ? & _ & ? & _)]; [done | lia].
    + rewrite (FileFromPath_read_error _ _ _ _ file msg) by (auto; lia).
      split.
      * intros [f [= <- <-]]. right. exists file, msg.
        repeat split; auto; lia.
      * intros [? | (f' & msg' & [= <-] & _ & Hm & ->)]; [done |].
        rewrite Hf in Hm. injection Hm as <-. eauto.
    + rewrite (FileFromPath_read _ _ _ _ file) by auto. rewrite Hsz.
      split; [by intros [? ?] |].
      intros [? | (f' & msg' & [= <-] & _ & Hm & _)]; [done |].
      rewrite Hf in Hm. done.
  - intros file Hfs Hf. destruct (Hstat file Hfs) as [sz Hsz].
    rewrite (FileFromPath_read _ _ _ _ file) by auto. rewrite Hsz. eauto.
Qed.

Lemma FileFromPath_error_iff_witness :
  (∀ e : error,
     (∃ f, FileFromPath sample_Hash64 sample_fs "A" 8 = Returns (f, Some e))
     ↔ (os_Open sample_fs "A" = inl e
        ∨ ∃ file msg, sample_fs "A" = inr file ∧ 0 < 8
                      ∧ read_fault file = Some msg
                      ∧ e = PathError "read" "A" msg))
  ∧ (∀ file,
       sample_fs "A" = inr file → read_fault file = None →
       ∃ f, FileFromPath sample_Hash64 sample_fs "A" 8 = Returns (f, None)
            ∧ bytesHash f = sample_Hash64 (prefix_buffer file (Z.to_nat 8)) 0).
Proof.
  apply (FileFromPath_error_iff sample_Hash64 sample_fs "A" 8).
  - lia.
  - intros file [= <-]. cbn. eauto.
Defined.

(** C6 as stated fails: the directory [dir] opens and [Stat] gives its size,
    and yet [FileFromPath] returns an error, the one of the read. *)
Lemma FileFromPath_error_after_open_and_stat :
  sample_fs "dir" = inr (mkOpenFile (Some 4096) [] (Some "is a directory"))
  ∧ ∀ Hash64 : list byte → Z → Z,
      FileFromPath Hash64 sample_fs "dir" 4096
      = Returns (File_zero, Some (PathError "read" "dir" "is a directory")).
Proof. split; [done |]. intros Hash64. done. Qed.

(** ** Loops over a map do not depend on the visiting order *)

Lemma visit_NoDup (m : gmap Z (list File)) (visit : list (Z * list File)) :
  visit ≡ₚ map_to_list m → NoDup visit.*1.
Proof. intros ->. apply NoDup_fst_map_to_list. Qed.

Lemma visit_list_to_map (m : gmap Z (list File)) (visit : list (Z * list File)) :
  visit ≡ₚ map_to_list m → list_to_map visit = m.
Proof.
  intros Hp. rewrite <- (list_to_map_to_list m).
  apply list_to_map_proper; [by eapply visit_NoDup | done].
Qed.

Lemma visit_elem_of (m : gmap Z (list File)) (visit : list (Z * list File)) k v :
  visit ≡ₚ map_to_list m → (k, v) ∈ visit ↔ m !! k = Some v.
Proof. intros ->. apply elem_of_map_to_list. Qed.

(** ** [Prune] *)

Lemma Prune_loop_lookup (visit : list (Z * list File)) (acc : gmap Z (list File)) (k : Z) :
  NoDup visit.*1 →
  Prune_loop visit acc !! k
  = match (list_to_map visit : gmap Z (list File)) !! k with
    | Some v => if bool_decide (1 < length v)%nat then Some v else acc !! k
    | None => acc !! k
    end.
Proof.
  revert acc. induction visit as [| [k0 v0] rest IH]; intros acc Hnd; [done |].
  apply NoDup_cons in Hnd as [Hk0 Hnd].
  change (Prune_loop ((k0, v0) :: rest) acc)
    with (Prune_loop rest (if bool_decide (1 < length v0)%nat
                           then <[k0 := v0]> acc else acc)).
  rewrite IH by done.
  cbn [list_to_map foldr fst snd uncurry]. destruct (decide (k = k0)) as [-> | Hne].
  - rewrite lookup_insert_eq, (not_elem_of_list_to_map_1 _ _ Hk0).
    case_bool_decide; [by rewrite lookup_insert_eq | done].
  - rewrite lookup_insert_ne by done.
    destruct (list_to_map rest !! k); [case_bool_decide; [done |] |];
      (case_bool_decide; [by rewrite lookup_insert_ne | done]).
Qed.

Lemma Prune_visiting_lookup (p : PathStore) (visit : list (Z * list File)) (k : Z) :
  visit ≡ₚ entries p →
  paths (Prune_visiting visit p).1 !! k
  = match paths p !! k with
    | Some v => if bool_decide (1 < length v)%nat then Some v else None
    | None => None
    end.
Proof.
  intros Hp. cbn. rewrite Prune_loop_lookup by (by eapply visit_NoDup).
  rewrite (visit_list_to_map (paths p)) by done. by rewrite lookup_empty.
Qed.

Lemma Prune_lookup (p : PathStore) (k : Z) (g : list File) :
  paths (Prune p).1 !! k = Some g ↔ paths p !! k = Some g ∧ (2 ≤ length g)%nat.
Proof.
  unfold Prune. rewrite Prune_visiting_lookup by done.
  destruct (paths p !! k) as [v |]; [| split; [done | by intros [? _]]].
  destruct (decide (1 < length v)%nat) as [Hl | Hl].
  - rewrite bool_decide_eq_true_2 by done.
    split; [intros [= <-]; split; [done | lia] | by intros [? _]].
  - rewrite bool_decide_eq_false_2 by done.
    split; [done | intros [[= <-] ?]; lia].
Qed.

(** C9. [Prune] returns a store whose groups are exactly the groups of the
    receiver of length at least 2, each under its key; the store returned
    is the same for every order in which [range] visits the receiver's map;
    the receiver is afterwards what it was. *)
Theorem Prune_correct (p : PathStore) :
  (∀ k g, paths (Prune p).1 !! k = Some g
          ↔ paths p !! k = Some g ∧ (2 ≤ length g)%nat)
  ∧ paths (Prune p).1 = filter (λ kv, (2 ≤ length kv.2)%nat) (paths p)
  ∧ (∀ visit, visit ≡ₚ entries p → Prune_visiting visit p = Prune p)
  ∧ (Prune p).2 = p.
Proof.
  split; [apply Prune_lookup |]. split; [| split; [| done]].
  - apply map_eq. intros k. apply option_eq. intros g.
    rewrite Prune_lookup, map_lookup_filter_Some. done.
  - intros visit Hp. unfold Prune, Prune_visiting. f_equal. f_equal.
    apply map_eq. intros k.
    pose proof (Prune_visiting_lookup p visit k Hp) as H1.
    pose proof (Prune_visiting_lookup p (entries p) k (reflexivity _)) as H2.
    cbn in H1, H2. by rewrite H1, H2.
Qed.

(** ** [TotalSizeDups] and [Summarize] *)

Lemma int_of_mod (z : Z) : int_of z mod 2 ^ 64 = z mod 2 ^ 64.
Proof.
  unfold int_of. rewrite Zminus_mod_idemp_l. f_equal. lia.
Qed.

Lemma int_of_congr (a b : Z) : a mod 2 ^ 64 = b mod 2 ^ 64 → int_of a = int_of b.
Proof.
  intros H. unfold int_of. f_equal.
  rewrite (Zplus_mod a), (Zplus_mod b), H. done.
Qed.

Lemma int_of_small (z : Z) : - 2 ^ 63 ≤ z < 2 ^ 63 → int_of z = z.
Proof. intros H. unfold int_of. rewrite Z.mod_small; lia. Qed.

Lemma int_of_step (total n s : Z) :
  int_of (total + int_of (n * int_of s)) = int_of (total + n * s).
Proof.
  apply int_of_congr.
  rewrite Zplus_mod, int_of_mod, Zmult_mod, int_of_mod, <- Zmult_mod, <- Zplus_mod.
  done.
Qed.

Lemma Zsum_perm (l1 l2 : list Z) : l1 ≡ₚ l2 → Zsum l1 = Zsum l2.
Proof. induction 1; unfold Zsum in *; cbn [foldr] in *; lia. Qed.

Lemma TotalSizeDups_loop_spec (visit : list (Z * list File)) (total : Z) :
  Forall (λ kv, kv.2 ≠ []) visit →
  TotalSizeDups_loop visit (int_of total)
  = Returns (int_of (total + Zsum (map (λ kv, group_dup_bytes kv.2) visit))).
Proof.
  revert total. induction visit as [| [k v] rest IH]; intros total Hne.
  - cbn. by rewrite Z.add_0_r.
  - apply Forall_cons in Hne as [Hv Hne]. cbn in Hv.
    destruct v as [| v0 v']; [done |].
    cbn [TotalSizeDups_loop]. rewrite int_of_step.
    rewrite <- (int_of_congr (total + group_dup_bytes (v0 :: v'))
                  (int_of total + (Z.of_nat (length (v0 :: v')) - 1) * size v0)).
    + rewrite IH by done. unfold Zsum. cbn [map foldr snd]. f_equal. f_equal. lia.
    + unfold group_dup_bytes. cbn [hd].
      rewrite Zplus_mod, (Zplus_mod (int_of total)), int_of_mod. done.
Qed.

Lemma TotalSizeDups_loop_empty_group (visit : list (Z * list File)) (total : Z) :
  Exists (λ kv, kv.2 = []) visit →
  TotalSizeDups_loop visit total = Panics "runtime error: index out of range [0] with length 0".
Proof.
  revert total. induction visit as [| [k v] rest IH]; intros total Hex.
  - by apply Exists_nil in Hex.
  - destruct v as [| v0 v']; [done |].
    apply Exists_cons in Hex as [Hex | Hex]; [done |]. cbn. by apply IH.
Qed.

(** C7, as amended. On a store none of whose groups is empty,
    [TotalSizeDups] returns, for every order of visiting the map, the sum
    over the groups of (length - 1) times the size of the group's first
    record, reduced into the range of a 64-bit signed integer; it is the sum
    itself whenever the sum lies in that range. *)
Theorem TotalSizeDups_spec (p : PathStore) :
  (∀ k g, paths p !! k = Some g → g ≠ []) →
  (∀ visit, visit ≡ₚ entries p →
     TotalSizeDups_visiting visit = Returns (int_of (duplicated_bytes p)))
  ∧ TotalSizeDups p = Returns (int_of (duplicated_bytes p))
  ∧ (- 2 ^ 63 ≤ duplicated_bytes p < 2 ^ 63 →
     TotalSizeDups p = Returns (duplicated_bytes p)).
Proof.
  intros Hne.
  assert (Hall : ∀ visit, visit ≡ₚ entries p →
     TotalSizeDups_visiting visit = Returns (int_of (duplicated_bytes p))).
  { intros visit Hp. unfold TotalSizeDups_visiting.
    change 0 with (int_of 0) at 1. rewrite TotalSizeDups_loop_spec.
    - rewrite Z.add_0_l. unfold duplicated_bytes. f_equal. f_equal.
      apply Zsum_perm. by rewrite Hp.
    - apply Forall_forall. intros [k v] Hin. cbn.
      apply (visit_elem_of (paths p)) in Hin; [| done]. by eapply Hne. }
  split; [done |]. split; [by apply Hall |].
  intros Hrange. unfold TotalSizeDups. rewrite Hall by done.
  by rewrite int_of_small.
Qed.

Lemma TotalSizeDups_spec_witness :
  TotalSizeDups (mkPathStore {[7 := [mkFile "A" 5 7 0; mkFile "B" 5 7 0]]} 8 ∅)
  = Returns 5.
Proof.
  destruct (TotalSizeDups_spec
              (mkPathStore {[7 := [mkFile "A" 5 7 0; mkFile "B" 5 7 0]]} 8 ∅))
    as (_ & _ & H).
  - intros k g Hk. cbn in Hk. apply lookup_singleton_Some in Hk as [_ <-]. done.
  - rewrite H; [reflexivity |]. vm_compute. split; [discriminate | reflexivity].
Defined.

(** A store filled by [AddFile] never has [pathsAdded] written, so the call
    goes on to [FileFromPath]. *)
Lemma AddFile_ok (Hash64 : list byte → Z → Z) (fs : FS) (s : string)
    (p : PathStore) (f : File) :
  pathsAdded p = ∅ →
  FileFromPath Hash64 fs s (bytesPerFile p) = Returns (f, None) →
  AddFile Hash64 fs s p
  = (Returns None,
     mkPathStore (<[bytesHash f := group (paths p) (bytesHash f) ++ [f]]> (paths p))
                 (bytesPerFile p) ∅).
Proof.
  intros Hpa Hf. unfold AddFile, PathAdded. rewrite Hpa, lookup_empty, Hf. done.
Qed.

(** Running [AddFile] on a concrete file system with [Hash64] left open. *)
Ltac run_AddFile :=
  erewrite AddFile_ok; [| done | vm_compute; reflexivity];
  cbn [paths bytesHash bytesPerFile pathsAdded].
Ltac store_simpl :=
  unfold group;
  rewrite ?lookup_empty, ?lookup_insert_eq, ?lookup_singleton_eq; cbn [default app];
  rewrite ?insert_insert_eq, ?insert_empty, ?insert_singleton_eq.

(** C7 as stated fails: three files of 2^62 bytes with the same first eight
    bytes form one group, whatever [Hash64] is; the sum is 2 * 2^62 = 2^63,
    and [TotalSizeDups] returns -2^63. *)
Lemma TotalSizeDups_wraps :
  huge_fs "X" = inr (mkOpenFile (Some (2 ^ 62)) (replicate 8 x00) None)
  ∧ ∀ Hash64 : list byte → Z → Z, ∃ st,
      NewPathStore Hash64 huge_fs ["X"; "Y"; "Z"] 8 = Returns (st, None)
      ∧ duplicated_bytes st = 2 ^ 63
      ∧ TotalSizeDups st = Returns (- 2 ^ 63).
Proof.
  split; [done |]. intros Hash64. eexists. split.
  - unfold NewPathStore. cbn [NewPathStore_loop].
    do 3 run_AddFile. store_simpl. reflexivity.
  - unfold duplicated_bytes, TotalSizeDups, entries. cbn [paths].
    rewrite map_to_list_singleton. split; vm_compute; reflexivity.
Qed.

(** C10, as amended. The megabytes in the string of [Summarize] are the
    decimal form of [TotalSizeDups()] divided by 1048576 with the quotient
    truncated towards zero; a total of magnitude below 1048576, so every
    total from 0 to 1048575, is printed as [0]. *)
Theorem Summarize_megabytes (p : PathStore) (total : Z) :
  TotalSizeDups p = Returns total →
  Summarize p
  = Returns (FormatInt10 (FileCount p) +:+ " files (in "
             +:+ FormatInt10 (FileSetCount p) +:+ " sets), occupying "
             +:+ FormatInt10 (total ÷ 1048576) +:+ " megabytes")
  ∧ (0 ≤ total → total ÷ 1048576 = total / 1048576)
  ∧ (- 1048576 < total < 1048576 →
     Summarize p
     = Returns (FormatInt10 (FileCount p) +:+ " files (in "
                +:+ FormatInt10 (FileSetCount p) +:+ " sets), occupying "
                +:+ "0" +:+ " megabytes")).
Proof.
  intros Ht.
  assert (HS : Summarize p
    = Returns (FormatInt10 (FileCount p) +:+ " files (in "
               +:+ FormatInt10 (FileSetCount p) +:+ " sets), occupying "
               +:+ FormatInt10 (total ÷ 1048576) +:+ " megabytes")).
  { unfold Summarize. rewrite Ht. done. }
  split; [done |]. split.
  - intros Hpos. apply Z.quot_div_nonneg; lia.
  - intros Hsmall. rewrite HS.
    assert (total ÷ 1048576 = 0) as ->; [| done].
    destruct (Z.le_gt_cases 0 total).
    + apply Z.quot_small. lia.
    + rewrite <- (Z.opp_involutive total), Z.quot_opp_l by lia.
      rewrite Z.quot_small; lia.
Qed.

Lemma Summarize_megabytes_witness :
  Summarize (mkPathStore {[7 := [mkFile "A" 5 7 0; mkFile "B" 5 7 0]]} 8 ∅)
  = Returns "2 files (in 1 sets), occupying 0 megabytes".
Proof.
  destruct (Summarize_megabytes
              (mkPathStore {[7 := [mkFile "A" 5 7 0; mkFile "B" 5 7 0]]} 8 ∅) 5)
    as (_ & _ & H).
  - reflexivity.
  - rewrite H; [reflexivity | lia].
Defined.

(** C10 as stated fails: a total below one mebibyte is not always printed
    as [0]. Three files of 2^62 bytes with the same first eight bytes form
    one group, whatever [Hash64] is; [TotalSizeDups] returns -2^63, which is
    below 1048576, and [Summarize] prints -8796093022208 megabytes. *)
Lemma Summarize_negative_total :
  - 2 ^ 63 < 1048576
  ∧ ∀ Hash64 : list byte → Z → Z, ∃ st,
      NewPathStore Hash64 huge_fs ["X"; "Y"; "Z"] 8 = Returns (st, None)
      ∧ TotalSizeDups st = Returns (- 2 ^ 63)
      ∧ Summarize st
        = Returns "3 files (in 1 sets), occupying -8796093022208 megabytes".
Proof.
  split; [done |]. intros Hash64. eexists. split.
  - unfold NewPathStore. cbn [NewPathStore_loop].
    do 3 run_AddFile. store_simpl. reflexivity.
  - unfold Summarize, FileCount, FileSetCount, TotalSizeDups, entries. cbn [paths].
    rewrite map_to_list_singleton, map_size_singleton.
    split; vm_compute; reflexivity.
Qed.

(** ** Filling a store: [AddFile] and the loop of [NewPathStore] *)

Section StoreFacts.
Context (Hash64 : list byte → Z → Z) (fs : FS).

Lemma FileFromPath_ok_inv (path : string) (N : Z) (f : File) :
  FileFromPath Hash64 fs path N = Returns (f, None) →
  ∃ file sz, fs path = inr file ∧ stat_size file = Some sz ∧ 0 ≤ N
             ∧ f = mkFile path (uint64_of sz)
                     (Hash64 (screening_bytes fs path N) 0) 0.
Proof.
  intros H. destruct (Z.lt_ge_cases N 0) as [Hneg | Hpos].
  { by rewrite FileFromPath_negative in H. }
  unfold screening_bytes.
  destruct (fs path) as [msg | file] eqn:Hfs.
  { by rewrite (FileFromPath_open_error _ _ _ _ msg) in H. }
  assert (read_fault file = None ∨ N = 0) as Hf.
  { destruct (read_fault file) as [msg |] eqn:Hf; [| by left].
    destruct (decide (N = 0)); [by right |].
    rewrite (FileFromPath_read_error _ _ _ _ file msg) in H by (auto; lia). done. }
  rewrite (FileFromPath_read _ _ _ _ file) in H by auto.
  destruct (stat_size file) as [sz |] eqn:Hst; [| done].
  injection H as <-. by exists file, sz.
Qed.

Lemma AddFile_ok_inv (s : string) (p p' : PathStore) :
  AddFile Hash64 fs s p = (Returns None, p') →
  ∃ f, FileFromPath Hash64 fs s (bytesPerFile p) = Returns (f, None)
       ∧ p' = mkPathStore
                (<[bytesHash f := group (paths p) (bytesHash f) ++ [f]]> (paths p))
                (bytesPerFile p) (pathsAdded p).
Proof.
  unfold AddFile. destruct (PathAdded Hash64 p s); [done |].
  destruct (FileFromPath Hash64 fs s (bytesPerFile p)) as [[f [e |]] | m]; [done | | done].
  intros [= <-]. eauto.
Qed.

(** [AddFile] returns its receiver as it was whenever it returns an error. *)
Lemma AddFile_error_unchanged (s : string) (p p' : PathStore) (e : error) :
  AddFile Hash64 fs s p = (Returns (Some e), p') → p' = p.
Proof.
  unfold AddFile. destruct (PathAdded Hash64 p s); [by intros [= _ <-] |].
  destruct (FileFromPath Hash64 fs s (bytesPerFile p)) as [[f [e' |]] | m];
    [by intros [= _ <-] | done | done].
Qed.

Lemma group_insert_app (m : gmap Z (list File)) (f : File) (k : Z) :
  group (<[bytesHash f := group m (bytesHash f) ++ [f]]> m) k
  = group m k ++ filter (λ f, bytesHash f = k) [f].
Proof.
  unfold group. destruct (decide (bytesHash f = k)) as [<- | Hne].
  - rewrite lookup_insert_eq. cbn [default].
    rewrite filter_cons_True by done. by rewrite filter_nil.
  - rewrite lookup_insert_ne by done.
    rewrite filter_cons_False by done. by rewrite filter_nil, app_nil_r.
Qed.

(** The store after the loop: every path gave a record, and each group has
    gained, in order, the records with its key. *)
Lemma NewPathStore_loop_inv (ps : list string) (store st : PathStore) :
  NewPathStore_loop Hash64 fs ps store = Returns (st, None) →
  ∃ recs,
    Forall2 (λ q f, FileFromPath Hash64 fs q (bytesPerFile store) = Returns (f, None))
            ps recs
    ∧ bytesPerFile st = bytesPerFile store
    ∧ pathsAdded st = pathsAdded store
    ∧ (∀ k, group (paths st) k
            = group (paths store) k ++ filter (λ f, bytesHash f = k) recs)
    ∧ ((∀ k g, paths store !! k = Some g → g ≠ []) →
       ∀ k g, paths st !! k = Some g → g ≠ []).
Proof.
  revert store. induction ps as [| p ps' IH]; intros store Hloop.
  - injection Hloop as <-. exists []. repeat split; [constructor | | done].
    intros k. by rewrite filter_nil, app_nil_r.
  - cbn [NewPathStore_loop] in Hloop.
    destruct (AddFile Hash64 fs p store) as [[[e |] | m] store1] eqn:Hadd; [done | | done].
    apply AddFile_ok_inv in Hadd as (f & Hf & ->).
    apply IH in Hloop as (recs & Hrecs & Hbpf & Hpa & Hgroup & Hne).
    cbn [bytesPerFile pathsAdded paths] in *.
    exists (f :: recs). repeat split; [by constructor | done | done | |].
    + intros k. rewrite Hgroup, group_insert_app, <- app_assoc.
      by rewrite <- filter_app.
    + intros Hstore. apply Hne. intros k g.
      destruct (decide (bytesHash f = k)) as [<- | Hk].
      * rewrite lookup_insert_eq. intros [= <-]. by destruct (group _ _).
      * rewrite lookup_insert_ne by done. apply Hstore.
Qed.

(** [NewPathStore], when it returns no error: the records of the paths, in
    order, and every group the records with its key. *)
Lemma NewPathStore_inv (ps : list string) (N : Z) (st : PathStore) :
  NewPathStore Hash64 fs ps N = Returns (st, None) →
  ∃ recs,
    Forall2 (λ q f, FileFromPath Hash64 fs q N = Returns (f, None)) ps recs
    ∧ bytesPerFile st = N
    ∧ pathsAdded st = ∅
    ∧ ∀ k g, paths st !! k = Some g ↔
             g = filter (λ f, bytesHash f = k) recs ∧ g ≠ [].
Proof.
  intros H. apply NewPathStore_loop_inv in H as (recs & Hrecs & Hbpf & Hpa & Hgroup & Hne).
  cbn [bytesPerFile pathsAdded paths] in *.
  exists recs. split; [done |]. split; [done |]. split; [done |].
  intros k g. specialize (Hgroup k). unfold group in Hgroup.
  rewrite lookup_empty in Hgroup. cbn [default app] in Hgroup. split.
  - intros Hk. rewrite Hk in Hgroup. simpl in Hgroup. split; [done |].
    apply (Hne ltac:(intros ? ?; by rewrite lookup_empty) k g Hk).
  - intros [-> Hg].
    destruct (paths st !! k) as [g |]; simpl in Hgroup; [by rewrite Hgroup |].
    by rewrite <- Hgroup in Hg.
Qed.

End StoreFacts.

(** ** Screening: which files reach the pruned store *)

Lemma filter_two_indices {A} (P : A → Prop) `{!∀ x, Decision (P x)} (l : list A) :
  (2 ≤ length (filter P l))%nat →
  ∃ j1 j2 x1 x2, j1 ≠ j2 ∧ l !! j1 = Some x1 ∧ P x1 ∧ l !! j2 = Some x2 ∧ P x2.
Proof.
  induction l as [| x l IH]; intros Hlen; [cbn in Hlen; lia |].
  destruct (decide (P x)) as [Hx | Hx].
  - rewrite filter_cons_True in Hlen by done. cbn [length] in Hlen.
    destruct (filter P l) as [| y rest] eqn:Hfl; [cbn in Hlen; lia |].
    assert (y ∈ filter P l) as Hy by (rewrite Hfl; left).
    apply list_elem_of_filter in Hy as [Hy Hyl].
    apply list_elem_of_lookup in Hyl as [j Hj].
    exists 0%nat, (S j), x, y. done.
  - rewrite filter_cons_False in Hlen by done.
    destruct (IH Hlen) as (j1 & j2 & x1 & x2 & Hne & H1 & HP1 & H2 & HP2).
    exists (S j1), (S j2), x1, x2. repeat split; [lia | done..].
Qed.

Section Screening.
Context (Hash64 : list byte → Z → Z) (fs : FS).

(** The record at a position of the store's input is the record of the path
    at that position. *)
Lemma record_of_index (ps : list string) (N : Z) (recs : list File) (j : nat) (x : File) :
  Forall2 (λ q f, FileFromPath Hash64 fs q N = Returns (f, None)) ps recs →
  recs !! j = Some x →
  ∃ q, ps !! j = Some q ∧ path x = q
       ∧ bytesHash x = Hash64 (screening_bytes fs q N) 0 ∧ fullHash x = 0.
Proof.
  intros Hrecs Hj.
  destruct (Forall2_lookup_r _ _ _ _ _ Hrecs Hj) as (q & Hq & Hf).
  apply FileFromPath_ok_inv in Hf as (file & sz & _ & _ & _ & ->).
  by exists q.
Qed.

(** C3, as amended. When [NewPathStore] has filed every input, a file whose
    buffer of first [N] bytes (zeros where the file is shorter) no other
    input shares is in no group of the pruned store, as long as no other
    input's buffer has the same [Hash64]. *)
Theorem unique_prefix_not_in_pruned
    (ps : list string) (N : Z) (st : PathStore) (i : nat) (p : string) :
  NewPathStore Hash64 fs ps N = Returns (st, None) →
  ps !! i = Some p →
  (∀ j q, ps !! j = Some q → j ≠ i →
          screening_bytes fs q N ≠ screening_bytes fs p N) →
  (∀ q, q ∈ ps →
        Hash64 (screening_bytes fs q N) 0 = Hash64 (screening_bytes fs p N) 0 →
        screening_bytes fs q N = screening_bytes fs p N) →
  ∀ k g f, paths (Prune st).1 !! k = Some g → f ∈ g → path f ≠ p.
Proof.
  intros Hnew Hi Huniq Hnocoll k g f Hk Hf Hpath.
  apply Prune_lookup in Hk as [Hk Hlen].
  apply NewPathStore_inv in Hnew as (recs & Hrecs & _ & _ & Hchar).
  apply Hchar in Hk as [-> _].
  apply list_elem_of_filter in Hf as [Hfk Hf].
  apply list_elem_of_lookup in Hf as [jf Hjf].
  destruct (record_of_index _ _ _ _ _ Hrecs Hjf) as (qf & _ & Hqf & Hhf & _).
  assert (k = Hash64 (screening_bytes fs p N) 0) as Hkp by congruence.
  destruct (filter_two_indices _ _ Hlen)
    as (j1 & j2 & x1 & x2 & Hne & H1 & HP1 & H2 & HP2).
  assert (∃ j x, j ≠ i ∧ recs !! j = Some x ∧ bytesHash x = k) as (j & x & Hji & Hj & Hx).
  { destruct (decide (j1 = i)) as [-> | ?]; [exists j2, x2 | exists j1, x1]; done. }
  destruct (record_of_index _ _ _ _ _ Hrecs Hj) as (q & Hq & _ & Hhq & _).
  apply (Huniq j q Hq Hji). apply Hnocoll; [| congruence].
  apply list_elem_of_lookup. eauto.
Qed.

End Screening.

Lemma unique_prefix_not_in_pruned_witness :
  ∃ st, NewPathStore sample_Hash64 sample_fs ["A"; "B"; "C"] 8 = Returns (st, None)
        ∧ ∀ k g f, paths (Prune st).1 !! k = Some g → f ∈ g → path f ≠ "C".
Proof.
  eexists. split; [vm_compute; reflexivity |].
  apply (unique_prefix_not_in_pruned sample_Hash64 sample_fs ["A"; "B"; "C"] 8 _ 2 "C").
  - vm_compute. reflexivity.
  - reflexivity.
  - intros [| [| [| j]]] q Hq Hj; try done; injection Hq as <-;
      vm_compute; discriminate.
  - intros q Hq Hh. rewrite !elem_of_cons in Hq.
    destruct Hq as [-> | [-> | [-> | Hq]]];
      [| | reflexivity | apply elem_of_nil in Hq; destruct Hq];
      apply Z.eqb_eq in Hh; vm_compute in Hh; discriminate.
Defined.

(** C3 as stated fails: [D] (11 bytes) and [E] (12 bytes) have the same
    first five bytes, so each has a (size, first-5-bytes) pair of its own;
    with [N = 5] both are in a group of the pruned store, whatever [Hash64]
    is. *)
Lemma same_prefix_other_size_grouped :
  sample_fs "D" = regular_file "hello world"
  ∧ sample_fs "E" = regular_file "hello there!"
  ∧ ∀ Hash64 : list byte → Z → Z, ∃ st,
      NewPathStore Hash64 sample_fs ["D"; "E"] 5 = Returns (st, None)
      ∧ paths (Prune st).1 !! Hash64 (String.list_byte_of_string "hello") 0
        = Some [mkFile "D" 11 (Hash64 (String.list_byte_of_string "hello") 0) 0;
                mkFile "E" 12 (Hash64 (String.list_byte_of_string "hello") 0) 0].
Proof.
  split; [done |]. split; [done |]. intros Hash64. eexists. split.
  - unfold NewPathStore. cbn [NewPathStore_loop].
    do 2 run_AddFile. store_simpl. reflexivity.
  - apply Prune_lookup. cbn [paths]. split; [apply lookup_singleton_eq | cbn; lia].
Qed.

(** ** The guard against adding a path twice *)

Section PathGuard.
Context (Hash64 : list byte → Z → Z) (fs : FS).

Lemma AddFile_pathsAdded (s : string) (p : PathStore) :
  pathsAdded (AddFile Hash64 fs s p).2 = pathsAdded p.
Proof.
  unfold AddFile. destruct (PathAdded Hash64 p s); [done |].
  by destruct (FileFromPath Hash64 fs s (bytesPerFile p)) as [[f [e |]] | m].
Qed.

Lemma NewPathStore_loop_pathsAdded (ps : list string) (store st : PathStore) e :
  NewPathStore_loop Hash64 fs ps store = Returns (st, e) →
  pathsAdded st = pathsAdded store.
Proof.
  revert store. induction ps as [| p ps' IH]; intros store Hloop.
  - by injection Hloop as <- <-.
  - cbn [NewPathStore_loop] in Hloop.
    pose proof (AddFile_pathsAdded p store) as Hpa.
    destruct (AddFile Hash64 fs p store) as [[[e' |] | m] store1]; [| | done].
    + by injection Hloop as <- <-.
    + apply IH in Hloop. by rewrite Hloop.
Qed.

(** No store that [NewPathStore] returns knows any path as added: nothing
    writes [pathsAdded]. *)
Lemma PathAdded_never (ps : list string) (N : Z) (st : PathStore) e (s : string) :
  NewPathStore Hash64 fs ps N = Returns (st, e) →
  PathAdded Hash64 st s = false.
Proof.
  intros H. apply NewPathStore_loop_pathsAdded in H. cbn in H.
  unfold PathAdded. by rewrite H, lookup_empty.
Qed.

End PathGuard.

(** C1, on the code. The path [A] is added to the store that already holds
    it: the second [AddFile] returns nil, not an error, and the group of [A]
    now holds its record twice; so it is for every [Hash64]. *)
Theorem AddFile_same_path_twice :
  sample_fs "A" = regular_file "hello"
  ∧ ∀ Hash64 : list byte → Z → Z,
      let a := mkFile "A" 5 (Hash64 hello_padded 0) 0 in
      ∃ st st',
        NewPathStore Hash64 sample_fs ["A"] 8 = Returns (st, None)
        ∧ AddFile Hash64 sample_fs "A" st = (Returns None, st')
        ∧ paths st = {[Hash64 hello_padded 0 := [a]]}
        ∧ paths st' = {[Hash64 hello_padded 0 := [a; a]]}
        ∧ st' ≠ st.
Proof.
  split; [done |]. intros Hash64 a. subst a. unfold hello_padded.
  eexists (mkPathStore {[_ := [_]]} 8 ∅), (mkPathStore {[_ := [_; _]]} 8 ∅).
  split; [| split; [| split; [done | split; [done |]]]].
  - unfold NewPathStore. cbn [NewPathStore_loop]. run_AddFile. store_simpl.
    reflexivity.
  - run_AddFile. store_simpl. reflexivity.
  - intros Heq. apply (f_equal (λ s, paths s !! Hash64 hello_padded 0)) in Heq.
    cbn [paths] in Heq. unfold hello_padded in Heq.
    rewrite !lookup_singleton_eq in Heq. by injection Heq.
Qed.

(** ** The two input modes *)

Section Modes.
Context (Hash64 : list byte → Z → Z).

(** The loop of [fromSTDIn] is the loop of [NewPathStore], with [errOut] at
    the first error. *)
Lemma fromSTDIn_loop_eq (flags : Flags) (env : Env) (lines : list string)
    (themap : PathStore) :
  fromSTDIn_loop Hash64 env lines themap
  = match NewPathStore_loop Hash64 (env_fs env) lines themap with
    | Returns (st, None) => proc_ret st
    | Returns (_, Some e) => errOut e
    | Panics m => call (Panics m)
    end.
Proof.
  revert themap. induction lines as [| l rest IH]; intros themap; [done |].
  cbn [fromSTDIn_loop NewPathStore_loop].
  destruct (AddFile Hash64 (env_fs env) l themap) as [[[e |] | m] st1]; [done | | done].
  apply IH.
Qed.

(** What [main_bytesMatch] hands on, by the mode: the store of
    [NewPathStore] over the walked paths with the [-bytes] flag, or the
    pruned store of the loop over the lines with [bytesPerFile] zero. *)
Lemma main_bytesMatch_inv (flags : Flags) (env : Env) out (bytesMatch : PathStore) :
  main_bytesMatch Hash64 flags env = (out, inr bytesMatch) →
  if flag_stdin flags then
    ∃ themap,
      NewPathStore Hash64 (env_fs env) (env_stdin env) 0 = Returns (themap, None)
      ∧ bytesMatch = (Prune themap).1
      ∧ out = ["getting paths from stdin"]
  else
    NewPathStore Hash64 (env_fs env) (dirWalk env (flag_path flags)).1 (flag_bytes flags)
    = Returns (bytesMatch, None)
    ∧ out = [].
Proof.
  unfold main_bytesMatch. destruct (flag_stdin flags).
  - unfold fromSTDIn. rewrite (fromSTDIn_loop_eq flags).
    fold (NewPathStore Hash64 (env_fs env) (env_stdin env) 0).
    destruct (NewPathStore Hash64 (env_fs env) (env_stdin env) 0)
      as [[themap [e |]] | m]; [done | | done].
    intros [= <- <-]. eauto.
  - cbn [dirWalk fst proc_bind proc_ret app].
    destruct (NewPathStore Hash64 (env_fs env) _ (flag_bytes flags))
      as [[st [e |]] | m]; [done | | done].
    intros [= <- <-]. done.
Qed.

(** With a buffer of no bytes, the bytes handed to [Hash64] are none. *)
Lemma screening_bytes_0 (fs : FS) (path : string) : screening_bytes fs path 0 = [].
Proof. unfold screening_bytes. by destruct (fs path). Qed.

(** In the mode [-stdin], whatever the flags are otherwise, every record of
    [bytesMatch] has the digest of the empty byte string. *)
Lemma stdin_mode_digest (flags : Flags) (env : Env) out (bytesMatch : PathStore) k g f :
  flag_stdin flags = true →
  main_bytesMatch Hash64 flags env = (out, inr bytesMatch) →
  paths bytesMatch !! k = Some g → f ∈ g →
  bytesHash f = Hash64 [] 0.
Proof.
  intros Hstdin Hbm Hk Hf. apply main_bytesMatch_inv in Hbm. rewrite Hstdin in Hbm.
  destruct Hbm as (themap & Hthemap & -> & _).
  apply Prune_lookup in Hk as [Hk _].
  apply NewPathStore_inv in Hthemap as (recs & Hrecs & _ & _ & Hchar).
  apply Hchar in Hk as [-> _].
  apply list_elem_of_filter in Hf as [_ Hf].
  apply list_elem_of_lookup in Hf as [j Hj].
  destruct (record_of_index _ _ _ _ _ _ _ Hrecs Hj) as (q & _ & _ & Hh & _).
  by rewrite Hh, screening_bytes_0.
Qed.

End Modes.

(** C2, on the code. In the mode [-stdin] the [-bytes] flag has no part:
    for every value [n] of the flag and every [Hash64], the three files of
    the sample environment, [A] and [C] of different content, get the
    digest of the empty byte string and form one group. *)
Theorem stdin_mode_ignores_bytes_flag :
  sample_fs "A" = regular_file "hello"
  ∧ sample_fs "C" = regular_file "world"
  ∧ ∀ (Hash64 : list byte → Z → Z) (n : Z),
      main_bytesMatch Hash64 (mkFlags true "" 2 n false) sample_env
      = (["getting paths from stdin"],
         inr (mkPathStore
                {[Hash64 [] 0 := [mkFile "A" 5 (Hash64 [] 0) 0;
                                  mkFile "B" 5 (Hash64 [] 0) 0;
                                  mkFile "C" 5 (Hash64 [] 0) 0]]}
                0 ∅)).
Proof.
  split; [done |]. split; [done |]. intros Hash64 n.
  unfold main_bytesMatch, fromSTDIn.
  cbn [flag_stdin sample_env env_stdin env_fs fromSTDIn_loop].
  do 3 run_AddFile. store_simpl. cbn [id app proc_bind proc_ret Println].
  unfold Prune, Prune_visiting, entries. cbn [fst paths bytesPerFile].
  rewrite map_to_list_singleton. cbn. by rewrite insert_empty.
Qed.

(** ** The hashing stage *)

Lemma elem_of_concat {A} (x : A) (ls : list (list A)) :
  x ∈ concat ls ↔ ∃ l, l ∈ ls ∧ x ∈ l.
Proof.
  induction ls as [| l ls IH]; cbn [concat].
  - split; [by intros ?%elem_of_nil | by intros (? & ?%elem_of_nil & _)].
  - rewrite elem_of_app, IH. split.
    + intros [Hx | (l' & Hl' & Hx)]; [exists l | exists l'];
        (split; [| done]); [left | by right].
    + intros (l' & Hl' & Hx). apply elem_of_cons in Hl' as [-> | Hl']; [by left |].
      right. eauto.
Qed.

Section Pool.
Context (Hash64 : list byte → Z → Z) (fs : FS).

Lemma pool_inv_step (Q : File → Prop) (s s' : pool) :
  pool_step Hash64 fs s s' → pool_inv Hash64 fs Q s → pool_inv Hash64 fs Q s'.
Proof.
  intros Hstep (Hfeed & Hheld & Hfiled). unfold pool_inv.
  destruct Hstep as [q n ws c h | f q n ws c h i Hi | q ws h i f data Hi Hread
                    | n ws c h i Hi | q n ws h Hall];
    cbn [feeding workers hashed] in *.
  - split; [done |]. split; [| done].
    intros i f [[_ Hi] | [_ [=]]]%lookup_snoc_Some. by eapply Hheld.
  - apply Forall_cons in Hfeed as [Hf Hq]. split; [done |]. split; [| done].
    intros j f' [(-> & [= <-] & _) | [_ Hj]]%list_lookup_insert_Some;
      [done | by eapply Hheld].
  - split; [done |]. split.
    + intros j f' [(-> & [=] & _) | [_ Hj]]%list_lookup_insert_Some.
      by eapply Hheld.
    + intros k g f'. destruct (decide (Hash64 data 0 = k)) as [<- | Hk].
      * rewrite lookup_insert_eq. intros [= <-] [Hin | ->%list_elem_of_singleton]%elem_of_app.
        -- unfold group in Hin. destruct (h !! Hash64 data 0) as [g0 |] eqn:Hg0;
             [by eapply Hfiled | by apply elem_of_nil in Hin].
        -- exists f, data. split; [by eapply Hheld | done].
      * rewrite lookup_insert_ne by done. apply Hfiled.
  - split; [done |]. split; [| done].
    intros j f' [(-> & [=] & _) | [_ Hj]]%list_lookup_insert_Some.
    by eapply Hheld.
  - done.
Qed.

Lemma pool_inv_rtc (Q : File → Prop) (s s' : pool) :
  rtc (pool_step Hash64 fs) s s' → pool_inv Hash64 fs Q s → pool_inv Hash64 fs Q s'.
Proof. induction 1; eauto using pool_inv_step. Qed.

Lemma pool_inv_init (Q : File → Prop) (visit : list (Z * list File)) (numWorkers : Z) :
  Forall Q (concat visit.*2) → pool_inv Hash64 fs Q (pool_init visit numWorkers).
Proof.
  intros H. split; [done |]. split.
  - intros i f Hi. cbn in Hi. by rewrite lookup_nil in Hi.
  - intros k g f' Hk. cbn in Hk. by rewrite lookup_empty in Hk.
Qed.

(** Every record the stage ever has in hand is a record of some group of
    the store it was started on. *)
Lemma pool_reaches_inv (newStore : PathStore) (numWorkers : Z) (s : pool) :
  pool_reaches Hash64 fs newStore numWorkers s →
  pool_inv Hash64 fs (λ f, ∃ k g, paths newStore !! k = Some g ∧ f ∈ g) s.
Proof.
  intros (visit & Hvisit & Hrtc). eapply pool_inv_rtc; [done |].
  apply pool_inv_init. apply Forall_forall. intros f Hf.
  apply elem_of_concat in Hf as (g & Hg & Hf).
  apply list_elem_of_fmap in Hg as ([k g'] & -> & Hkg).
  apply (visit_elem_of (paths newStore)) in Hkg; [| done]. eauto.
Qed.

End Pool.

(** ** [main]: the screening part *)

Section MainFacts.
Context (Hash64 : list byte → Z → Z) (flags : Flags) (env : Env).

(** What has happened when [main] reaches the goroutines. *)
Lemma main_screening_inv out (bytesMatch newStore : PathStore) :
  main_screening Hash64 flags env = (out, inr (bytesMatch, newStore)) →
  ∃ out0 s1 s2,
    main_bytesMatch Hash64 flags env = (out0, inr bytesMatch)
    ∧ newStore = (Prune bytesMatch).1
    ∧ Summarize bytesMatch = Returns s1
    ∧ Summarize newStore = Returns s2
    ∧ out = out0 ++ [s1; s2; "got the hashed map"].
Proof.
  unfold main_screening.
  destruct (flag_stdin flags && negb (String.eqb (flag_path flags) "")); [done |].
  cbn [proc_bind proc_ret app].
  destruct (main_bytesMatch Hash64 flags env) as [out0 [h | bm]]; [done |].
  cbn [call proc_bind proc_ret Println app].
  destruct (Summarize bm) as [s1 | m] eqn:Hs1;
    cbn [call proc_bind proc_ret Println app]; [| done].
  destruct (Summarize (Prune bm).1) as [s2 | m] eqn:Hs2;
    cbn [call proc_bind proc_ret Println app]; [| done].
  intros [= <- <- <-]. exists out0, s1, s2. done.
Qed.

(** The records of [bytesMatch], in either mode: each is filed under its
    [bytesHash], and none has a [fullHash]. *)
Lemma main_bytesMatch_records out (bytesMatch : PathStore) k g f :
  main_bytesMatch Hash64 flags env = (out, inr bytesMatch) →
  paths bytesMatch !! k = Some g → f ∈ g →
  bytesHash f = k ∧ fullHash f = 0.
Proof.
  intros Hbm Hk Hf. apply main_bytesMatch_inv in Hbm.
  assert (∀ ps N st, NewPathStore Hash64 (env_fs env) ps N = Returns (st, None) →
                     paths st !! k = Some g → bytesHash f = k ∧ fullHash f = 0) as Hnew.
  { intros ps N st Hst Hg.
    apply NewPathStore_inv in Hst as (recs & Hrecs & _ & _ & Hchar).
    apply Hchar in Hg as [-> _].
    apply list_elem_of_filter in Hf as [Hfk Hf].
    apply list_elem_of_lookup in Hf as [j Hj].
    destruct (record_of_index _ _ _ _ _ _ _ Hrecs Hj) as (q & _ & _ & _ & H0).
    done. }
  destruct (flag_stdin flags).
  - destruct Hbm as (themap & Hthemap & -> & _).
    apply Prune_lookup in Hk as [Hk _]. eauto.
  - destruct Hbm as [Hst _]. eauto.
Qed.

(** C8. Once [main] has its two stores, every record the hashing stage has
    in hand, in any state it can reach, whether still to be sent, held by
    a worker or filed by main with its [fullHash] set, is a record of a
    group of at least two of [bytesMatch]; a record that is alone in its
    group of [bytesMatch] is never sent, held or filed; and no record of
    [bytesMatch] has a [fullHash]. *)
Theorem hashing_only_groups_of_two out (bytesMatch newStore : PathStore) (s : pool) :
  main_screening Hash64 flags env = (out, inr (bytesMatch, newStore)) →
  pool_reaches Hash64 (env_fs env) newStore (flag_workers flags) s →
  (∀ f, f ∈ feeding s → in_group_of_two bytesMatch f)
  ∧ (∀ i f, workers s !! i = Some (Holding f) → in_group_of_two bytesMatch f)
  ∧ (∀ k g f', hashed s !! k = Some g → f' ∈ g →
       ∃ f data, in_group_of_two bytesMatch f
                 ∧ f' = with_fullHash Hash64 f data)
  ∧ (∀ k f, paths bytesMatch !! k = Some [f] →
       (f ∉ feeding s)
       ∧ (∀ i, workers s !! i ≠ Some (Holding f))
       ∧ (∀ k' g data, hashed s !! k' = Some g → with_fullHash Hash64 f data ∉ g))
  ∧ (∀ k g f, paths bytesMatch !! k = Some g → f ∈ g → fullHash f = 0).
Proof.
  intros Hmain Hreach.
  apply main_screening_inv in Hmain as (out0 & s1 & s2 & Hbm & -> & _ & _ & _).
  apply pool_reaches_inv in Hreach as (Hfeed & Hheld & Hfiled).
  assert (Hbig : ∀ f, (∃ k g, paths (Prune bytesMatch).1 !! k = Some g ∧ f ∈ g) →
                      in_group_of_two bytesMatch f).
  { intros f (k & g & [Hk Hlen]%Prune_lookup & Hf). by exists k, g. }
  assert (Hlone : ∀ k f, paths bytesMatch !! k = Some [f] →
                         ¬ in_group_of_two bytesMatch f).
  { intros k f Hk (k' & g & Hk' & Hf & Hlen).
    destruct (main_bytesMatch_records _ _ _ _ _ Hbm Hk' Hf) as [<- _].
    destruct (main_bytesMatch_records _ _ k [f] f Hbm Hk) as [Hkf _]; [left |].
    rewrite Hkf, Hk in Hk'. injection Hk' as <-. cbn in Hlen. lia. }
  split; [| split; [| split; [| split]]].
  - intros f Hf. apply Hbig. by eapply (proj1 (Forall_forall _ _) Hfeed).
  - intros i f Hi. apply Hbig. by eapply Hheld.
  - intros k g f' Hk Hf'.
    destruct (Hfiled k g f' Hk Hf') as (f & data & HQ & _ & -> & _).
    exists f, data. auto.
  - intros k f Hk. split; [| split].
    + intros Hf. apply (Hlone k f Hk), Hbig.
      by eapply (proj1 (Forall_forall _ _) Hfeed).
    + intros i Hi. apply (Hlone k f Hk), Hbig. by eapply Hheld.
    + intros k' g data Hk' Hin.
      destruct (Hfiled k' g _ Hk' Hin) as (f0 & data0 & HQ & _ & Heq & _).
      apply Hbig in HQ. apply (Hlone k f Hk).
      destruct HQ as (k0 & g0 & Hk0 & Hf0 & Hlen).
      destruct (main_bytesMatch_records _ _ _ _ _ Hbm Hk0 Hf0) as [_ H0].
      destruct (main_bytesMatch_records _ _ k [f] f Hbm Hk) as [_ H0']; [left |].
      assert (f = f0) as ->; [| by exists k0, g0].
      destruct f, f0. cbn in *. unfold with_fullHash in Heq. cbn in Heq. congruence.
  - intros k g f Hk Hf. by destruct (main_bytesMatch_records _ _ _ _ _ Hbm Hk Hf).
Qed.

End MainFacts.

(** ** A run of [main] on the sample environment *)

Lemma sample_screening (summarize : bool) :
  main_screening sample_Hash64 (sample_flags summarize) sample_env
  = (["3 files (in 2 sets), occupying 0 megabytes";
      "2 files (in 1 sets), occupying 0 megabytes";
      "got the hashed map"], inr (sample_bytesMatch, sample_newStore)).
Proof. destruct summarize; vm_compute; reflexivity. Qed.

(** The one worker takes [A], main files it, the worker takes [B], main
    files it, the worker returns, and [resultq] is closed. *)
Lemma sample_pool_reaches :
  pool_reaches sample_Hash64 sample_fs sample_newStore 1
    (mkPool [] 0 [Returned] true sample_hashed).
Proof.
  exists [(bytesHash sample_A, [sample_A; sample_B])]. split.
  { unfold entries, sample_newStore. cbn [paths]. by rewrite map_to_list_singleton. }
  unfold pool_init. cbn [fmap list_fmap snd concat app].
  change (Z.to_nat 1) with 1%nat.
  eapply rtc_l; [apply step_spawn |]. cbn [app].
  eapply rtc_l; [apply (step_take _ _ _ _ _ _ _ _ 0%nat); reflexivity |].
  eapply rtc_l; [apply (step_result _ _ _ _ _ 0%nat sample_A hello); reflexivity |].
  eapply rtc_l; [apply (step_take _ _ _ _ _ _ _ _ 0%nat); reflexivity |].
  eapply rtc_l; [apply (step_result _ _ _ _ _ 0%nat sample_B hello); reflexivity |].
  eapply rtc_l; [apply (step_return _ _ _ _ _ _ 0%nat); reflexivity |].
  eapply rtc_l; [apply step_close; repeat constructor |].
  cbn [list_insert insert]. unfold group. rewrite lookup_empty.
  cbn [default from_option id app].
  rewrite lookup_insert_eq. cbn [from_option id app].
  rewrite insert_insert_eq, insert_empty.
  apply rtc_refl.
Qed.


Lemma hashing_only_groups_of_two_witness :
  main_screening sample_Hash64 (sample_flags false) sample_env
  = (["3 files (in 2 sets), occupying 0 megabytes";
      "2 files (in 1 sets), occupying 0 megabytes";
      "got the hashed map"], inr (sample_bytesMatch, sample_newStore))
  ∧ pool_reaches sample_Hash64 sample_fs sample_newStore 1
      (mkPool [] 0 [Returned] true sample_hashed)
  ∧ (∀ k g f', sample_hashed !! k = Some g → f' ∈ g →
       ∃ f data, in_group_of_two sample_bytesMatch f
                 ∧ f' = with_fullHash sample_Hash64 f data)
  ∧ (∀ k' g data, sample_hashed !! k' = Some g →
       with_fullHash sample_Hash64 sample_C data ∉ g).
Proof.
  split; [apply sample_screening |]. split; [apply sample_pool_reaches |].
  destruct (hashing_only_groups_of_two sample_Hash64 (sample_flags false) sample_env
              _ _ _ _ (sample_screening false) sample_pool_reaches)
    as (_ & _ & Hfiled & Hlone & _).
  split; [exact Hfiled |].
  apply (Hlone (bytesHash sample_C) sample_C). reflexivity.
Defined.

(** ** [main]: what it prints *)

Section Output.
Context (Hash64 : list byte → Z → Z) (flags : Flags) (env : Env).



End Output.



(** * Further properties of the code *)

(** ** The records of a store: [AllPaths], [FileCount], [EmptyFiles] *)

Lemma concat_perm {A} (l1 l2 : list (list A)) : l1 ≡ₚ l2 → concat l1 ≡ₚ concat l2.
Proof.
  induction 1 as [| x l l' _ IH | x y l | l l' l'' _ IH1 _ IH2]; cbn [concat].
  - done.
  - by rewrite IH.
  - rewrite !app_assoc. f_equiv. apply Permutation_app_comm.
  - by rewrite IH1.
Qed.

Lemma visit_records (m : gmap Z (list File)) (visit : list (Z * list File)) :
  visit ≡ₚ map_to_list m → concat visit.*2 ≡ₚ all_records m.
Proof. intros Hp. unfold all_records. apply concat_perm. by rewrite Hp. Qed.

Lemma elem_of_all_records (m : gmap Z (list File)) (f : File) :
  f ∈ all_records m ↔ ∃ k g, m !! k = Some g ∧ f ∈ g.
Proof.
  unfold all_records. rewrite elem_of_concat. split.
  - intros (g & Hg & Hf). apply list_elem_of_fmap in Hg as ([k g'] & -> & Hkg).
    apply elem_of_map_to_list in Hkg. eauto.
  - intros (k & g & Hk & Hf). exists g. split; [| done].
    apply list_elem_of_fmap. exists (k, g). split; [done |].
    by apply elem_of_map_to_list.
Qed.

(** A record appended to the group of its key is one more record of the map. *)
Lemma all_records_insert (m : gmap Z (list File)) (k : Z) (f : File) :
  all_records (<[k := group m k ++ [f]]> m) ≡ₚ f :: all_records m.
Proof.
  unfold all_records, group. destruct (m !! k) as [v |] eqn:Hk; cbn [default from_option id].
  - rewrite <- (insert_delete_eq m k).
    rewrite map_to_list_insert by apply lookup_delete_eq.
    rewrite <- (map_to_list_delete m k v Hk). cbn [fmap list_fmap snd concat].
    rewrite <- app_assoc. cbn [app].
    by rewrite <- Permutation_middle.
  - rewrite map_to_list_insert by done. done.
Qed.

Lemma FileCount_visiting_from (visit : list (Z * list File)) (count : Z) :
  foldl (λ count kv, int_of (count + Z.of_nat (length kv.2))) (int_of count) visit
  = int_of (count + Z.of_nat (length (concat visit.*2))).
Proof.
  revert count. induction visit as [| [k v] rest IH]; intros count.
  - cbn. by rewrite Z.add_0_r.
  - cbn [foldl fmap list_fmap snd concat]. rewrite IH.
    rewrite length_app. apply int_of_congr.
    rewrite Zplus_mod, (Zplus_mod (int_of count)), int_of_mod.
    rewrite <- (Zplus_mod count), <- Zplus_mod. f_equal. lia.
Qed.

Lemma FileCount_visiting_length (p : PathStore) (visit : list (Z * list File)) :
  visit ≡ₚ entries p →
  FileCount_visiting visit = int_of (Z.of_nat (length (AllPaths p))).
Proof.
  intros Hp. unfold FileCount_visiting.
  change 0 with (int_of 0) at 1. rewrite FileCount_visiting_from, Z.add_0_l.
  f_equal. f_equal. apply Permutation_length. by apply visit_records.
Qed.

(** X1. [AllPaths] returns the records of all groups, each as often as the
    groups hold it: whatever order [range] visits the map in, the result is
    a permutation of the groups laid end to end, and a record is in it
    exactly when some group holds it. *)
Theorem AllPaths_records (p : PathStore) :
  (∀ visit, visit ≡ₚ entries p → AllPaths_visiting visit ≡ₚ AllPaths p)
  ∧ (∀ f, f ∈ AllPaths p ↔ ∃ k g, paths p !! k = Some g ∧ f ∈ g).
Proof.
  split.
  - intros visit Hp. by apply visit_records.
  - intros f. apply elem_of_all_records.
Qed.

(** X2. [FileCount] is the number of records [AllPaths] returns, whatever
    order the map is visited in: reduced into the range of a 64-bit signed
    integer, and the number itself when that is below 2^63. *)
Theorem FileCount_length (p : PathStore) :
  (∀ visit, visit ≡ₚ entries p →
     FileCount_visiting visit = int_of (Z.of_nat (length (AllPaths p))))
  ∧ (Z.of_nat (length (AllPaths p)) < 2 ^ 63 →
     FileCount p = Z.of_nat (length (AllPaths p))).
Proof.
  split; [apply FileCount_visiting_length |].
  intros Hlt. unfold FileCount. rewrite (FileCount_visiting_length p) by done.
  apply int_of_small. lia.
Qed.

(** X3. [EmptyFiles] returns exactly the records of size 0: a record is in
    the result, for any order of visiting the map, exactly when its size is
    0 and some group holds it; two visiting orders give permutations of one
    another. *)
Theorem EmptyFiles_records (p : PathStore) :
  (∀ visit, visit ≡ₚ entries p → EmptyFiles_visiting visit ≡ₚ EmptyFiles p)
  ∧ (∀ f, f ∈ EmptyFiles p ↔ size f = 0 ∧ ∃ k g, paths p !! k = Some g ∧ f ∈ g)
  ∧ EmptyFiles p = filter (λ f, size f = 0) (AllPaths p).
Proof.
  split; [| split; [| done]].
  - intros visit Hp. unfold EmptyFiles, EmptyFiles_visiting.
    by rewrite (visit_records (paths p) visit Hp).
  - intros f. unfold EmptyFiles, EmptyFiles_visiting.
    rewrite list_elem_of_filter. by rewrite (elem_of_all_records (paths p) f).
Qed.

(** ** [AddFile] and [NewPathStore], further *)

Section Filling.
Context (Hash64 : list byte → Z → Z) (fs : FS).

(** X4. What one [AddFile] does to its store. When it returns nil, the
    record [FileFromPath] made of the path, and nothing else, has been
    appended to the group of its [bytesHash]; every other group, and
    [bytesPerFile], are as before, and the store holds one record more. When
    it returns an error or panics, the store is as before. *)
Theorem AddFile_effect (s : string) (p : PathStore) :
  match AddFile Hash64 fs s p with
  | (Returns None, p') =>
    ∃ f, FileFromPath Hash64 fs s (bytesPerFile p) = Returns (f, None)
         ∧ path f = s
         ∧ paths p' !! bytesHash f = Some (group (paths p) (bytesHash f) ++ [f])
         ∧ (∀ k, k ≠ bytesHash f → paths p' !! k = paths p !! k)
         ∧ AllPaths p' ≡ₚ f :: AllPaths p
         ∧ bytesPerFile p' = bytesPerFile p
  | (_, p') => p' = p
  end.
Proof.
  destruct (AddFile Hash64 fs s p) as [[[e |] | m] p'] eqn:Hadd.
  - by eapply AddFile_error_unchanged.
  - apply AddFile_ok_inv in Hadd as (f & Hf & ->). exists f.
    destruct (FileFromPath_ok_inv _ _ _ _ _ Hf) as (file & sz & _ & _ & _ & Hrec).
    split; [done |]. split; [by rewrite Hrec |]. cbn [paths bytesPerFile].
    split; [by rewrite lookup_insert_eq |].
    split; [intros k Hk; by rewrite lookup_insert_ne |].
    split; [apply all_records_insert | done].
  - unfold AddFile in Hadd. destruct (PathAdded Hash64 p s); [done |].
    destruct (FileFromPath Hash64 fs s (bytesPerFile p)) as [[f [e |]] | m'];
      [done | done | by injection Hadd].
Qed.

Lemma NewPathStore_loop_app (ps1 ps2 : list string) (store : PathStore) :
  NewPathStore_loop Hash64 fs (ps1 ++ ps2) store
  = match NewPathStore_loop Hash64 fs ps1 store with
    | Returns (st, None) => NewPathStore_loop Hash64 fs ps2 st
    | r => r
    end.
Proof.
  revert store. induction ps1 as [| p ps1 IH]; intros store; [done |].
  cbn [app NewPathStore_loop].
  destruct (AddFile Hash64 fs p store) as [[[e |] | m] st1]; [done | apply IH | done].
Qed.

Lemma NewPathStore_loop_records (ps : list string) (store st : PathStore) :
  NewPathStore_loop Hash64 fs ps store = Returns (st, None) →
  ∃ recs,
    Forall2 (λ q f, FileFromPath Hash64 fs q (bytesPerFile store) = Returns (f, None))
            ps recs
    ∧ all_records (paths st) ≡ₚ all_records (paths store) ++ recs.
Proof.
  revert store. induction ps as [| p ps' IH]; intros store Hloop.
  - injection Hloop as <-. exists []. split; [constructor | by rewrite app_nil_r].
  - cbn [NewPathStore_loop] in Hloop.
    destruct (AddFile Hash64 fs p store) as [[[e |] | m] store1] eqn:Hadd; [done | | done].
    apply AddFile_ok_inv in Hadd as (f & Hf & ->).
    apply IH in Hloop as (recs & Hrecs & Hperm).
    cbn [bytesPerFile paths] in *.
    exists (f :: recs). split; [by constructor |].
    rewrite Hperm, all_records_insert. by rewrite <- Permutation_middle.
Qed.

Lemma Forall2_functional {A B} (R : A → B → Prop) (l : list A) (k1 k2 : list B) :
  (∀ a b1 b2, R a b1 → R a b2 → b1 = b2) →
  Forall2 R l k1 → Forall2 R l k2 → k1 = k2.
Proof.
  intros HR H1. revert k2. induction H1 as [| a b l k1 Hab _ IH]; intros k2 H2.
  - by inversion H2.
  - inversion H2 as [| a' b' l' k2' Hab' H2']; subst. f_equal; eauto.
Qed.

(** X5. When [NewPathStore] returns no error, the store holds one record
    for each path, the record [FileFromPath] makes of it and no other:
    [AllPaths] is a permutation of the records of the paths, each group
    holds the records with its key in the order of the paths, and
    [FileCount] is the number of paths. *)
Theorem NewPathStore_files_every_path (ps : list string) (N : Z) (st : PathStore) :
  NewPathStore Hash64 fs ps N = Returns (st, None) →
  ∃ recs,
    Forall2 (λ q f, FileFromPath Hash64 fs q N = Returns (f, None) ∧ path f = q)
            ps recs
    ∧ AllPaths st ≡ₚ recs
    ∧ (∀ k, group (paths st) k = filter (λ f, bytesHash f = k) recs)
    ∧ FileCount st = int_of (Z.of_nat (length ps)).
Proof.
  intros Hnew.
  destruct (NewPathStore_loop_records _ _ _ Hnew) as (recs & Hrecs & Hperm).
  destruct (NewPathStore_loop_inv _ _ _ _ _ Hnew) as (recs' & Hrecs' & _ & _ & Hgroup & _).
  cbn [bytesPerFile paths] in *.
  assert (recs' = recs) as ->.
  { eapply Forall2_functional; [| exact Hrecs' | exact Hrecs]. cbn. congruence. }
  unfold all_records in Hperm at 2. rewrite map_to_list_empty in Hperm.
  cbn [fmap list_fmap concat app] in Hperm.
  exists recs. split; [| split; [done | split]].
  - eapply Forall2_impl; [exact Hrecs |]. intros q f Hf. split; [done |].
    by destruct (FileFromPath_ok_inv _ _ _ _ _ Hf) as (? & ? & _ & _ & _ & ->).
  - intros k. rewrite Hgroup. unfold group. by rewrite lookup_empty.
  - unfold FileCount. rewrite (FileCount_visiting_length st) by done. f_equal. f_equal.
    unfold AllPaths, AllPaths_visiting, entries. fold (all_records (paths st)).
    rewrite Hperm. symmetry. by eapply Forall2_length.
Qed.

(** X6. [NewPathStore] stops at the first path that fails. When the paths
    before [p] are filed without error and [FileFromPath] returns an error
    for [p], [NewPathStore] returns that error with the store of the paths
    before [p]; the paths after [p] play no part. *)
Theorem NewPathStore_first_error (ps1 ps2 : list string) (p : string) (N : Z)
    (st1 : PathStore) (f : File) (e : error) :
  NewPathStore Hash64 fs ps1 N = Returns (st1, None) →
  FileFromPath Hash64 fs p N = Returns (f, Some e) →
  NewPathStore Hash64 fs (ps1 ++ p :: ps2) N = Returns (st1, Some e).
Proof.
  intros H1 Hp. unfold NewPathStore in *. rewrite NewPathStore_loop_app, H1.
  cbn [NewPathStore_loop].
  destruct (NewPathStore_loop_inv _ _ _ _ _ H1) as (_ & _ & Hbpf & Hpa & _).
  cbn [bytesPerFile pathsAdded] in *.
  unfold AddFile, PathAdded. rewrite Hpa, lookup_empty, Hbpf, Hp. done.
Qed.

End Filling.

Lemma NewPathStore_files_every_path_witness :
  ∃ st, NewPathStore sample_Hash64 sample_fs ["A"; "B"; "C"] 8 = Returns (st, None)
        ∧ ∃ recs,
            Forall2 (λ q f, FileFromPath sample_Hash64 sample_fs q 8 = Returns (f, None)
                            ∧ path f = q) ["A"; "B"; "C"] recs
            ∧ AllPaths st ≡ₚ recs
            ∧ (∀ k, group (paths st) k = filter (λ f, bytesHash f = k) recs)
            ∧ FileCount st = int_of (Z.of_nat (length ["A"; "B"; "C"])).
Proof.
  eexists. split; [vm_compute; reflexivity |].
  apply (NewPathStore_files_every_path sample_Hash64 sample_fs ["A"; "B"; "C"] 8).
  vm_compute. reflexivity.
Defined.

Lemma NewPathStore_first_error_witness :
  ∃ st1, NewPathStore sample_Hash64 sample_fs ["A"] 8 = Returns (st1, None)
         ∧ NewPathStore sample_Hash64 sample_fs (["A"] ++ "zz" :: ["B"]) 8
           = Returns (st1, Some (PathError "open" "zz" "no such file or directory")).
Proof.
  eexists. split; [vm_compute; reflexivity |].
  apply (NewPathStore_first_error sample_Hash64 sample_fs ["A"] ["B"] "zz" 8 _ File_zero).
  - vm_compute. reflexivity.
  - reflexivity.
Defined.

(** ** [Prune], [TotalSizeDups] and [Summarize], further *)

Lemma Prune_paths (p : PathStore) :
  paths (Prune p).1 = filter (λ kv, (2 ≤ length kv.2)%nat) (paths p).
Proof.
  apply map_eq. intros k. apply option_eq. intros g.
  rewrite Prune_lookup, map_lookup_filter_Some. done.
Qed.

Lemma concat_length_twice (l : list (Z * list File)) :
  Forall (λ kv, (2 ≤ length kv.2)%nat) l →
  (2 * length l ≤ length (concat l.*2))%nat.
Proof.
  induction 1 as [| [k v] l Hv _ IH]; [done |].
  cbn [fmap list_fmap snd concat length] in *. rewrite length_app. lia.
Qed.

Lemma Prune_twice (p : PathStore) : (Prune (Prune p).1).1 = (Prune p).1.
Proof.
  unfold Prune at 1. unfold Prune_visiting. cbn [fst].
  change (Prune_loop (entries (Prune p).1) ∅) with (paths (Prune (Prune p).1).1).
  destruct (Prune p).1 as [m b a] eqn:Hp.
  assert (a = ∅) as -> by (by apply (f_equal pathsAdded) in Hp).
  cbn [bytesPerFile]. f_equal.
  apply map_eq. intros k. apply option_eq. intros g.
  rewrite Prune_lookup. cbn [paths].
  split; [by intros [? _] |]. intros Hk. split; [done |].
  assert (paths (Prune p).1 !! k = Some g) as Hk' by (by rewrite Hp).
  by apply Prune_lookup in Hk' as [_ ?].
Qed.

(** X7. Pruning a pruned store changes nothing; a pruned store has no more
    groups than the store it was made from, all its records are records of
    that store, and it holds at least two records for each of its groups. *)
Theorem Prune_idempotent (p : PathStore) :
  (Prune (Prune p).1).1 = (Prune p).1
  ∧ FileSetCount (Prune p).1 ≤ FileSetCount p
  ∧ (∀ f, f ∈ AllPaths (Prune p).1 → f ∈ AllPaths p)
  ∧ 2 * FileSetCount (Prune p).1 ≤ Z.of_nat (length (AllPaths (Prune p).1)).
Proof.
  split; [| split; [| split]].
  - apply Prune_twice.
  - unfold FileSetCount. rewrite Prune_paths.
    apply inj_le, map_subseteq_size, map_filter_subseteq.
  - intros f. unfold AllPaths, AllPaths_visiting, entries.
    fold (all_records (paths (Prune p).1)). fold (all_records (paths p)).
    rewrite !elem_of_all_records.
    intros (k & g & [Hk _]%Prune_lookup & Hf). eauto.
  - unfold FileSetCount, AllPaths, AllPaths_visiting, entries.
    rewrite <- length_map_to_list.
    pose proof (concat_length_twice (map_to_list (paths (Prune p).1))) as H.
    assert (Forall (λ kv : Z * list File, (2 ≤ length kv.2)%nat)
                   (map_to_list (paths (Prune p).1))) as Hall.
    { apply Forall_forall. intros [k g] Hkg. apply elem_of_map_to_list in Hkg.
      by apply Prune_lookup in Hkg as [_ ?]. }
    specialize (H Hall). lia.
Qed.

Lemma TotalSizeDups_returns (p : PathStore) :
  (∀ k g, paths p !! k = Some g → g ≠ []) →
  TotalSizeDups p = Returns (int_of (duplicated_bytes p)).
Proof.
  intros Hne. unfold TotalSizeDups, TotalSizeDups_visiting.
  change 0 with (int_of 0) at 1. rewrite TotalSizeDups_loop_spec.
  - by rewrite Z.add_0_l.
  - apply Forall_forall. intros [k v] Hin. cbn.
    apply elem_of_map_to_list in Hin. by eapply Hne.
Qed.

Lemma Prune_nonempty (p : PathStore) k g :
  paths (Prune p).1 !! k = Some g → g ≠ [].
Proof. intros [_ Hlen]%Prune_lookup ->. cbn in Hlen. lia. Qed.

(** A group of one record adds nothing to the sum: dropping the groups
    shorter than two leaves the sum as it is. *)
Lemma duplicated_sum_filter (m : gmap Z (list File)) :
  (∀ k g, m !! k = Some g → g ≠ []) →
  Zsum (map (λ kv, group_dup_bytes kv.2)
            (map_to_list (filter (λ kv, (2 ≤ length kv.2)%nat) m)))
  = Zsum (map (λ kv, group_dup_bytes kv.2) (map_to_list m)).
Proof.
  induction m as [| i x m Hi IH] using map_ind; intros Hne.
  - by rewrite map_filter_empty.
  - assert (∀ k g, m !! k = Some g → g ≠ []) as Hne'.
    { intros k g Hk. apply (Hne k). rewrite lookup_insert_ne; [done |].
      intros <-. by rewrite Hi in Hk. }
    specialize (IH Hne').
    rewrite (Zsum_perm _ _ (fmap_Permutation _ _ _ (map_to_list_insert m i x Hi))).
    rewrite map_filter_insert. cbn [fmap list_fmap map snd].
    case_decide as Hx.
    + rewrite (Zsum_perm _ _ (fmap_Permutation _ _ _
                 (map_to_list_insert _ i x (map_lookup_filter_None_2 _ _ _ (or_introl Hi))))).
      cbn [fmap list_fmap map snd]. unfold Zsum in *. cbn [foldr].
      f_equal. exact IH.
    + rewrite delete_id by done. etrans; [exact IH |]. unfold Zsum. cbn [foldr].
      assert (group_dup_bytes x = 0) as ->; [| exact (eq_sym (Z.add_0_l _))].
      cbn in Hx. specialize (Hne i x (lookup_insert_eq _ _ _)).
      destruct x as [| x0 [| x1 x']]; [done | done | cbn in Hx; lia].
Qed.

(** X8. On a store without an empty group, pruning does not change
    [TotalSizeDups]: the groups it drops hold one record each and add
    (1 - 1) * size = 0; and [TotalSizeDups] of the pruned store returns, it
    does not panic. *)
Theorem TotalSizeDups_Prune (p : PathStore) :
  (∀ k g, paths p !! k = Some g → g ≠ []) →
  TotalSizeDups (Prune p).1 = TotalSizeDups p
  ∧ ∃ total, TotalSizeDups p = Returns total.
Proof.
  intros Hne. rewrite (TotalSizeDups_returns p Hne).
  rewrite (TotalSizeDups_returns (Prune p).1 (Prune_nonempty p)).
  split; [| eauto]. f_equal. f_equal. unfold duplicated_bytes, entries.
  rewrite Prune_paths. by apply duplicated_sum_filter.
Qed.

Lemma TotalSizeDups_Prune_witness :
  TotalSizeDups (Prune sample_bytesMatch).1 = TotalSizeDups sample_bytesMatch
  ∧ ∃ total, TotalSizeDups sample_bytesMatch = Returns total.
Proof.
  apply (TotalSizeDups_Prune sample_bytesMatch).
  intros k g Hk. cbn [sample_bytesMatch paths] in Hk.
  apply lookup_insert_Some in Hk as [[_ <-] | [_ Hk]]; [done |].
  apply lookup_singleton_Some in Hk as [_ <-]. done.
Defined.

(** ** The hashing stage, further *)

Lemma held_middle (l1 l2 : list worker) (w : worker) :
  held (l1 ++ w :: l2)
  = held l1 ++ match w with Holding f => [f] | _ => [] end ++ held l2.
Proof. unfold held. rewrite omap_app. by destruct w. Qed.

Lemma held_insert (ws : list worker) (i : nat) (w w' : worker) :
  ws !! i = Some w →
  held ws = held (take i ws)
            ++ match w with Holding f => [f] | _ => [] end ++ held (drop (S i) ws)
  ∧ held (<[i := w']> ws)
    = held (take i ws)
      ++ match w' with Holding f => [f] | _ => [] end ++ held (drop (S i) ws).
Proof.
  intros Hi. split.
  - rewrite <- held_middle. by rewrite take_drop_middle.
  - rewrite insert_take_drop by (by eapply lookup_lt_Some). apply held_middle.
Qed.

Section PoolFurther.
Context (Hash64 : list byte → Z → Z) (fs : FS).

(** A step of the pool moves a record from the feeder to a worker or from a
    worker to main's map, or moves none: the records in hand stay the same,
    up to the [fullHash] a worker sets. *)
Lemma pool_step_conserves (s s' : pool) :
  pool_step Hash64 fs s s' →
  identity <$> (feeding s' ++ held (workers s') ++ all_records (hashed s'))
  ≡ₚ identity <$> (feeding s ++ held (workers s) ++ all_records (hashed s)).
Proof.
  intros Hstep.
  destruct Hstep as [q n ws c h | f q n ws c h i Hi | q ws h i f data Hi Hread
                    | n ws c h i Hi | q n ws h Hall];
    cbn [feeding workers hashed].
  - unfold held. rewrite omap_app. cbn [omap list_omap]. by rewrite app_nil_r.
  - destruct (held_insert ws i Waiting (Holding f) Hi) as [-> ->].
    repeat (rewrite fmap_app || rewrite fmap_cons).
    rewrite <- ?app_assoc. cbn [app]. by rewrite <- ?Permutation_middle.
  - destruct (held_insert ws i (Holding f) Waiting Hi) as [-> ->].
    rewrite all_records_insert.
    repeat (rewrite fmap_app || rewrite fmap_cons).
    rewrite <- ?app_assoc. cbn [app]. by rewrite <- ?Permutation_middle.
  - by destruct (held_insert ws i Waiting Returned Hi) as [-> ->].
  - done.
Qed.

Lemma pool_step_hashed_nonempty (s s' : pool) :
  pool_step Hash64 fs s s' →
  (∀ k g, hashed s !! k = Some g → g ≠ []) →
  ∀ k g, hashed s' !! k = Some g → g ≠ [].
Proof.
  intros Hstep Hne.
  destruct Hstep as [q n ws c h | f q n ws c h i Hi | q ws h i f data Hi Hread
                    | n ws c h i Hi | q n ws h Hall];
    cbn [hashed] in *; try done.
  intros k g. destruct (decide (Hash64 data 0 = k)) as [<- | Hk].
  - rewrite lookup_insert_eq. intros [= <-]. by destruct (group h (Hash64 data 0)).
  - rewrite lookup_insert_ne by done. apply Hne.
Qed.

Lemma pool_reaches_hashed_nonempty (newStore : PathStore) (numWorkers : Z) (s : pool) :
  pool_reaches Hash64 fs newStore numWorkers s →
  ∀ k g, hashed s !! k = Some g → g ≠ [].
Proof.
  intros (visit & _ & Hrtc).
  assert (∀ k g, hashed (pool_init visit numWorkers) !! k = Some g → g ≠ []) as H0.
  { intros k g Hk. cbn in Hk. by rewrite lookup_empty in Hk. }
  set (s0 := pool_init visit numWorkers) in *. clearbody s0.
  induction Hrtc as [| s1 s2 s3 Hstep _ IH]; [done |].
  apply IH. by apply (pool_step_hashed_nonempty _ _ Hstep).
Qed.

(** X9. The hashing stage loses no record and hashes none twice: in every
    state it can reach, the records still to be sent, the records the
    workers hold and the records main has filed are together the records of
    the store the stage started on, each as often as the store holds it (a
    filed record counted without the [fullHash] it has gained). *)
Theorem pool_conserves_records (newStore : PathStore) (numWorkers : Z) (s : pool) :
  pool_reaches Hash64 fs newStore numWorkers s →
  identity <$> (feeding s ++ held (workers s) ++ all_records (hashed s))
  ≡ₚ identity <$> AllPaths newStore.
Proof.
  intros (visit & Hvisit & Hrtc).
  assert (identity <$> (feeding (pool_init visit numWorkers)
                        ++ held (workers (pool_init visit numWorkers))
                        ++ all_records (hashed (pool_init visit numWorkers)))
          ≡ₚ identity <$> AllPaths newStore) as H0.
  { cbn [pool_init feeding workers hashed held omap list_omap app].
    unfold all_records. rewrite map_to_list_empty. cbn [fmap list_fmap concat].
    rewrite app_nil_r. apply fmap_Permutation.
    by apply (visit_records (paths newStore)). }
  set (s0 := pool_init visit numWorkers) in *. clearbody s0.
  induction Hrtc as [| s1 s2 s3 Hstep _ IH]; [done |].
  apply IH. by rewrite (pool_step_conserves _ _ Hstep).
Qed.

(** X10. Every group of [hashed.paths] is made of records whose files had
    the same [Hash64] of their whole content when the workers read them:
    the group is not empty, sits under that hash, and each of its records
    has it as its [fullHash]. *)
Theorem hashed_groups_by_content (newStore : PathStore) (numWorkers : Z) (s : pool)
    (k : Z) (g : list File) :
  pool_reaches Hash64 fs newStore numWorkers s →
  hashed s !! k = Some g →
  g ≠ []
  ∧ ∀ f, f ∈ g →
      fullHash f = k
      ∧ ∃ data, ReadFile fs (path f) = (data, None) ∧ Hash64 data 0 = k.
Proof.
  intros Hreach Hk. split; [by eapply pool_reaches_hashed_nonempty |].
  intros f Hf. apply pool_reaches_inv in Hreach as (_ & _ & Hfiled).
  destruct (Hfiled k g f Hk Hf) as (f0 & data & _ & Hread & -> & ->).
  split; [done |]. by exists data.
Qed.

End PoolFurther.

Lemma pool_conserves_records_witness :
  pool_reaches sample_Hash64 sample_fs sample_newStore 1
    (mkPool [] 0 [Returned] true sample_hashed)
  ∧ identity <$> ([] ++ held [Returned] ++ all_records sample_hashed)
    ≡ₚ identity <$> AllPaths sample_newStore.
Proof.
  split; [apply sample_pool_reaches |].
  apply (pool_conserves_records sample_Hash64 sample_fs sample_newStore 1
           (mkPool [] 0 [Returned] true sample_hashed) sample_pool_reaches).
Defined.

Lemma hashed_groups_by_content_witness :
  [with_fullHash sample_Hash64 sample_A hello;
   with_fullHash sample_Hash64 sample_B hello] ≠ []
  ∧ ∀ f, f ∈ [with_fullHash sample_Hash64 sample_A hello;
              with_fullHash sample_Hash64 sample_B hello] →
      fullHash f = sample_Hash64 hello 0
      ∧ ∃ data, ReadFile sample_fs (path f) = (data, None)
                ∧ sample_Hash64 data 0 = sample_Hash64 hello 0.
Proof.
  apply (hashed_groups_by_content sample_Hash64 sample_fs sample_newStore 1
           (mkPool [] 0 [Returned] true sample_hashed) _ _ sample_pool_reaches).
  apply lookup_singleton_eq.
Defined.

(** ** [main], further: how it stops *)

Lemma Summarize_returns (p : PathStore) :
  (∀ k g, paths p !! k = Some g → g ≠ []) → ∃ s, Summarize p = Returns s.
Proof.
  intros Hne. unfold Summarize. rewrite (TotalSizeDups_returns p Hne). eauto.
Qed.

Section Stopping.
Context (Hash64 : list byte → Z → Z).

Lemma FileFromPath_panics_inv (fs : FS) (path : string) (N : Z) (m : string) :
  FileFromPath Hash64 fs path N = Panics m →
  m = "runtime error: makeslice: len out of range"
  ∨ m = "runtime error: invalid memory address or nil pointer dereference".
Proof.
  unfold FileFromPath, make_bytes. destruct (N <? 0); [intros [= <-]; by left |].
  destruct (os_Open fs path) as [e | file]; [done |].
  destruct (ReadAt file path _) as [b [[| op name msg | msg] |]];
    try done; (destruct (stat_size file); [done | intros [= <-]; by right]).
Qed.

Lemma NewPathStore_loop_panics_inv (fs : FS) (ps : list string) (store : PathStore)
    (m : string) :
  NewPathStore_loop Hash64 fs ps store = Panics m →
  m = "runtime error: makeslice: len out of range"
  ∨ m = "runtime error: invalid memory address or nil pointer dereference".
Proof.
  revert store. induction ps as [| p ps' IH]; intros store; [done |].
  cbn [NewPathStore_loop].
  destruct (AddFile Hash64 fs p store) as [[[e |] | m'] st1] eqn:Hadd; [done | apply IH |].
  intros [= <-]. unfold AddFile in Hadd.
  destruct (PathAdded Hash64 store p); [done |].
  destruct (FileFromPath Hash64 fs p (bytesPerFile store)) as [[f [e |]] | m''] eqn:Hf;
    [done | done |].
  injection Hadd as <-. by eapply FileFromPath_panics_inv.
Qed.

(** [bytesMatch] of [main] in terms of the one call of the filing loop. *)
Lemma main_bytesMatch_eq (flags : Flags) (env : Env) :
  main_bytesMatch Hash64 flags env
  = match NewPathStore Hash64 (env_fs env) (main_inputs flags env) (main_buffSize flags) with
    | Returns (st, None) =>
      (main_banner flags, inr (if flag_stdin flags then (Prune st).1 else st))
    | Returns (_, Some e) => (main_banner flags ++ [Error e], inl (Exited 1))
    | Panics m => (main_banner flags, inl (Crashed m))
    end.
Proof.
  unfold main_bytesMatch, main_inputs, main_buffSize, main_banner.
  destruct (flag_stdin flags).
  - unfold fromSTDIn. rewrite (fromSTDIn_loop_eq Hash64 flags).
    fold (NewPathStore Hash64 (env_fs env) (env_stdin env) 0).
    by destruct (NewPathStore Hash64 (env_fs env) (env_stdin env) 0)
      as [[st [e |]] | m].
  - cbn [dirWalk fst proc_bind proc_ret app].
    by destruct (NewPathStore Hash64 (env_fs env) _ (flag_bytes flags))
      as [[st [e |]] | m].
Qed.

Lemma main_bytesMatch_nonempty (flags : Flags) (env : Env) out (bytesMatch : PathStore) :
  main_bytesMatch Hash64 flags env = (out, inr bytesMatch) →
  ∀ k g, paths bytesMatch !! k = Some g → g ≠ [].
Proof.
  rewrite main_bytesMatch_eq.
  destruct (NewPathStore Hash64 (env_fs env) (main_inputs flags env) (main_buffSize flags))
    as [[st [e |]] | m] eqn:Hnew; [done | | done].
  intros [= _ <-] k g Hk. destruct (flag_stdin flags).
  - exact (Prune_nonempty st k g Hk).
  - apply NewPathStore_inv in Hnew as (recs & _ & _ & _ & Hchar).
    by apply Hchar in Hk as [_ ?].
Qed.

(** X11. With both [-stdin] and [-path] given, [main] prints one line and
    leaves with status 1: that is its only run, and no file is looked at. *)
Theorem main_flag_conflict (flags : Flags) (env : Env) (r : proc unit) :
  flag_stdin flags = true → flag_path flags ≠ "" →
  main_run Hash64 flags env r
  ↔ r = (["Only one of -path or -stdin may be used"], inl (Exited 1)).
Proof.
  intros Hstdin Hpath.
  assert (main_screening Hash64 flags env
          = (["Only one of -path or -stdin may be used"], inl (Exited 1))) as Hscreen.
  { unfold main_screening. rewrite Hstdin.
    destruct (String.eqb_spec (flag_path flags) ""); [done |]. done. }
  split.
  - intros Hrun. inversion Hrun as [out h Hs | out bm ns rh Hs]; congruence.
  - intros ->. by apply main_stops.
Qed.

(** X12. When a path cannot be filed, [main] prints the error of the first
    such path, after the line announcing the stdin mode if that is the
    mode, and leaves with status 1: no summary is printed and no file is
    hashed. *)
Theorem main_reports_first_error (flags : Flags) (env : Env) (st : PathStore)
    (e : error) (r : proc unit) :
  flag_stdin flags && negb (String.eqb (flag_path flags) "") = false →
  NewPathStore Hash64 (env_fs env) (main_inputs flags env) (main_buffSize flags)
  = Returns (st, Some e) →
  main_run Hash64 flags env r
  ↔ r = (main_banner flags ++ [Error e], inl (Exited 1)).
Proof.
  intros Hflags Hnew.
  assert (main_screening Hash64 flags env
          = (main_banner flags ++ [Error e], inl (Exited 1))) as Hscreen.
  { unfold main_screening. rewrite Hflags, main_bytesMatch_eq, Hnew. done. }
  split.
  - intros Hrun. inversion Hrun as [out h Hs | out bm ns rh Hs]; congruence.
  - intros ->. by apply main_stops.
Qed.

(** The stage with no worker: [wg.Wait()] returns at once, [resultq] is
    closed, and nothing is sent. *)
Lemma pool_no_workers (fs : FS) (visit : list (Z * list File)) (numWorkers : Z) (s : pool) :
  numWorkers ≤ 0 →
  rtc (pool_step Hash64 fs) (pool_init visit numWorkers) s →
  workers s = [] ∧ unspawned s = 0%nat ∧ hashed s = ∅.
Proof.
  intros Hn Hrtc.
  assert (workers (pool_init visit numWorkers) = []
          ∧ unspawned (pool_init visit numWorkers) = 0%nat
          ∧ hashed (pool_init visit numWorkers) = ∅) as H0.
  { cbn. repeat split. lia. }
  set (s0 := pool_init visit numWorkers) in *. clearbody s0.
  induction Hrtc as [| s1 s2 s3 Hstep _ IH]; [done |].
  apply IH. destruct H0 as (Hw & Hu & Hh).
  destruct Hstep as [q n ws c h | f q n ws c h i Hi | q ws h i f data Hi Hread
                    | n ws c h i Hi | q n ws h Hall];
    cbn [workers unspawned hashed] in *; subst; try done.
Qed.

(** X13. With [-workers] at zero or below nothing is hashed: whatever files
    the screening kept, the stage hands on an empty map, and a run prints,
    after the lines of the screening, only the summary of the empty store
    if [-summarize] is set. *)
Theorem main_without_workers (flags : Flags) (env : Env) out
    (bytesMatch newStore : PathStore) (r : proc unit) :
  flag_workers flags ≤ 0 →
  main_screening Hash64 flags env = (out, inr (bytesMatch, newStore)) →
  main_run Hash64 flags env r
  ↔ r = (out ++ (if flag_summarize flags
                 then ["0 files (in 0 sets), occupying 0 megabytes"] else []),
         inr tt).
Proof.
  intros Hn Hscreen.
  assert (Hreport : main_report flags ∅
          = (if flag_summarize flags
             then ["0 files (in 0 sets), occupying 0 megabytes"] else [], inr tt)).
  { unfold main_report. by destruct (flag_summarize flags). }
  split.
  - intros Hrun. inversion Hrun as [o h Hs | o bm ns rh Hs Hhash]; [congruence |].
    rewrite Hscreen in Hs. injection Hs as <- <- <-. rewrite Hscreen.
    destruct Hhash as (s & (visit & _ & Hrtc) & Hends).
    destruct (pool_no_workers _ _ _ _ Hn Hrtc) as (Hw & Hu & Hh).
    inversion Hends as [q ws h | q n ws c h i f data e Hi | q n ws h i f data Hi
                       | q n ws h msg Hne]; subst;
      cbn [workers hashed] in *; subst.
    + cbn [proc_bind]. by rewrite Hreport.
    + by rewrite lookup_nil in Hi.
    + by rewrite lookup_nil in Hi.
    + done.
  - intros ->.
    pose proof (main_hashes Hash64 flags env out bytesMatch newStore ([], inr ∅) Hscreen)
      as Hrun.
    rewrite Hscreen in Hrun. cbn [proc_bind] in Hrun. rewrite Hreport in Hrun.
    cbn [app] in Hrun. apply Hrun.
    exists (mkPool (concat (entries newStore).*2) 0 [] true ∅). split.
    + exists (entries newStore). split; [done |].
      unfold pool_init. replace (Z.to_nat (flag_workers flags)) with 0%nat by lia.
      eapply rtc_l; [by apply step_close | apply rtc_refl].
    + apply ends_range.
Qed.

End Stopping.

Lemma main_flag_conflict_witness :
  main_run sample_Hash64 (mkFlags true "x" 1 8 false) sample_env
    (["Only one of -path or -stdin may be used"], inl (Exited 1)).
Proof.
  apply (main_flag_conflict sample_Hash64 (mkFlags true "x" 1 8 false) sample_env);
    [reflexivity | discriminate | reflexivity].
Defined.

Lemma main_reports_first_error_witness :
  main_run sample_Hash64 (mkFlags true "" 1 8 false) sample_env_missing
    (["getting paths from stdin"; "open zz: no such file or directory"],
     inl (Exited 1)).
Proof.
  eapply (main_reports_first_error sample_Hash64 (mkFlags true "" 1 8 false)
            sample_env_missing _
            (PathError "open" "zz" "no such file or directory"));
    [reflexivity | vm_compute; reflexivity | reflexivity].
Defined.

Lemma main_without_workers_witness :
  main_run sample_Hash64 (mkFlags false "." 0 8 true) sample_env
    (["3 files (in 2 sets), occupying 0 megabytes";
      "2 files (in 1 sets), occupying 0 megabytes";
      "got the hashed map";
      "0 files (in 0 sets), occupying 0 megabytes"], inr tt).
Proof.
  eapply (main_without_workers sample_Hash64 (mkFlags false "." 0 8 true) sample_env
            _ sample_bytesMatch sample_newStore);
    [cbn; lia | vm_compute; reflexivity | reflexivity].
Defined.

(** The panics a run can end in, as the embedding has them. *)
Lemma main_crash_inv (Hash64 : list byte → Z → Z) (flags : Flags) (env : Env)
    (out : list string) (m : string) :
  main_run Hash64 flags env (out, inl (Crashed m)) →
  m ∈ ["runtime error: makeslice: len out of range";
       "runtime error: invalid memory address or nil pointer dereference";
       "send on closed channel";
       "sync: WaitGroup is reused before previous Wait has returned";
       "sync: WaitGroup misuse: Add called concurrently with Wait"].
Proof.
  intros Hrun. rewrite !elem_of_cons.
  inversion Hrun as [o h Hs | o bm ns rh Hs Hhash Heq].
  - unfold main_screening in Hs.
    destruct (flag_stdin flags && negb (String.eqb (flag_path flags) "")); [done |].
    cbn [proc_bind proc_ret app] in Hs.
    destruct (main_bytesMatch Hash64 flags env) as [o0 [h0 | bm]] eqn:Hbm.
    + injection Hs as _ ->. rewrite main_bytesMatch_eq in Hbm.
      destruct (NewPathStore Hash64 (env_fs env) (main_inputs flags env)
                  (main_buffSize flags)) as [[st [e |]] | m'] eqn:Hnew; [done | done |].
      injection Hbm as _ ->.
      destruct (NewPathStore_loop_panics_inv _ _ _ _ _ Hnew) as [-> | ->]; auto.
    + cbn [call proc_bind proc_ret Println app] in Hs.
      destruct (Summarize_returns bm (main_bytesMatch_nonempty _ _ _ _ _ Hbm))
        as [s1 Hs1].
      destruct (Summarize_returns (Prune bm).1 (Prune_nonempty bm)) as [s2 Hs2].
      rewrite Hs1 in Hs. cbn [call proc_bind proc_ret Println app] in Hs.
      rewrite Hs2 in Hs. cbn [call proc_bind proc_ret Println app] in Hs. done.
  - rewrite Hs in Heq. cbn [proc_bind] in Heq.
    destruct Hhash as (s & _ & Hends).
    inversion Hends as [q ws h | q n ws c h i f data e Hi | q n ws h i f data Hi
                       | q n ws h msg Hne Hall Hmsg]; subst.
    + cbn [proc_bind] in Heq. unfold main_report in Heq.
      destruct (flag_summarize flags); [| done].
      destruct (Summarize_returns (Prune (mkPathStore h 0 ∅)).1 (Prune_nonempty _))
        as [s3 Hs3].
      rewrite Hs3 in Heq. done.
    + done.
    + cbn [proc_bind] in Heq. injection Heq as _ <-. auto.
    + cbn [proc_bind] in Heq. injection Heq as _ <-. destruct Hmsg as [-> | ->]; auto 10.
Qed.

(** X14. [main] never panics in [TotalSizeDups]: the stores it summarizes
    have no empty group, so [v[0]] is always there. [bytesMatch], in either
    mode, has no empty group and [Summarize] returns on it and on its pruned
    store; [Summarize] returns on the pruned store of whatever map the
    hashing stage hands on; and no run ends in the panic of an index out of
    range. *)
Theorem main_never_panics_in_Summarize
    (Hash64 : list byte → Z → Z) (flags : Flags) (env : Env) :
  (∀ out bytesMatch,
     main_bytesMatch Hash64 flags env = (out, inr bytesMatch) →
     (∀ k g, paths bytesMatch !! k = Some g → g ≠ [])
     ∧ ∃ s1 s2, Summarize bytesMatch = Returns s1
                ∧ Summarize (Prune bytesMatch).1 = Returns s2)
  ∧ (∀ h : gmap Z (list File),
       ∃ s3, Summarize (Prune (mkPathStore h 0 ∅)).1 = Returns s3)
  ∧ (∀ out m,
       main_run Hash64 flags env (out, inl (Crashed m)) →
       m ≠ "runtime error: index out of range [0] with length 0").
Proof.
  split; [| split].
  - intros out bm Hbm.
    pose proof (main_bytesMatch_nonempty _ _ _ _ _ Hbm) as Hne.
    split; [done |].
    destruct (Summarize_returns bm Hne) as [s1 Hs1].
    destruct (Summarize_returns (Prune bm).1 (Prune_nonempty bm)) as [s2 Hs2].
    eauto.
  - intros h. apply Summarize_returns, Prune_nonempty.
  - intros out m Hrun ->. apply main_crash_inv in Hrun.
    rewrite !elem_of_cons in Hrun.
    destruct Hrun as [? | [? | [? | [? | [? | Hnil]]]]]; try discriminate.
    by apply elem_of_nil in Hnil.
Qed.

(** ** Screening, further: files that agree are kept together *)

Lemma filter_length_two {A} (P : A → Prop) `{!∀ x, Decision (P x)} (l : list A)
    (i j : nat) (x y : A) :
  i ≠ j → l !! i = Some x → l !! j = Some y → P x → P y →
  (2 ≤ length (filter P l))%nat.
Proof.
  revert i j. induction l as [| a l IH]; intros i j Hij Hi Hj Hx Hy; [done |].
  assert (∀ z, z ∈ l → P z → (1 ≤ length (filter P l))%nat) as Hone.
  { intros z Hz HPz. assert (z ∈ filter P l) as Hin by (by apply list_elem_of_filter).
    destruct (filter P l); [by apply elem_of_nil in Hin | cbn; lia]. }
  destruct i as [| i], j as [| j]; [done | | |].
  - injection Hi as ->. rewrite filter_cons_True by done. cbn [length].
    apply le_n_S, (Hone y); [| done]. apply list_elem_of_lookup. eauto.
  - injection Hj as ->. rewrite filter_cons_True by done. cbn [length].
    apply le_n_S, (Hone x); [| done]. apply list_elem_of_lookup. eauto.
  - cbn in Hi, Hj. assert (2 ≤ length (filter P l))%nat as H2.
    { apply (IH i j); [lia | done..]. }
    rewrite filter_cons. destruct (decide (P a)); cbn [length]; lia.
Qed.

Lemma prefix_buffer_take (f1 f2 : OpenFile) (n : nat) :
  take n (content f1) = take n (content f2) →
  prefix_buffer f1 n = prefix_buffer f2 n.
Proof.
  intros Ht. unfold prefix_buffer. rewrite Ht. f_equal. f_equal.
  apply (f_equal length) in Ht. rewrite !length_take in Ht. lia.
Qed.

(** X15. The screening never separates two files that agree on their
    first [N] bytes, whatever their sizes and the rest of their content:
    when [NewPathStore] has filed every input, two inputs that agree so far
    are in one group, and that group is in the pruned store. In particular
    two files of the same content are never lost to the screening. *)
Theorem same_prefix_same_group (Hash64 : list byte → Z → Z) (fs : FS)
    (ps : list string) (N : Z) (st : PathStore) (i j : nat) (p q : string)
    (fp fq : OpenFile) :
  NewPathStore Hash64 fs ps N = Returns (st, None) →
  i ≠ j → ps !! i = Some p → ps !! j = Some q →
  fs p = inr fp → fs q = inr fq →
  take (Z.to_nat N) (content fp) = take (Z.to_nat N) (content fq) →
  ∃ k g f1 f2,
    paths (Prune st).1 !! k = Some g
    ∧ f1 ∈ g ∧ path f1 = p
    ∧ f2 ∈ g ∧ path f2 = q.
Proof.
  intros Hnew Hij Hi Hj Hp Hq Htake.
  apply NewPathStore_inv in Hnew as (recs & Hrecs & _ & _ & Hchar).
  destruct (Forall2_lookup_l _ _ _ _ _ Hrecs Hi) as (f1 & Hf1 & HF1).
  destruct (Forall2_lookup_l _ _ _ _ _ Hrecs Hj) as (f2 & Hf2 & HF2).
  destruct (record_of_index _ _ _ _ _ _ _ Hrecs Hf1) as (p' & Hp' & Hpath1 & Hh1 & _).
  destruct (record_of_index _ _ _ _ _ _ _ Hrecs Hf2) as (q' & Hq' & Hpath2 & Hh2 & _).
  assert (p' = p) as -> by congruence. assert (q' = q) as -> by congruence.
  assert (bytesHash f2 = bytesHash f1) as Hsame.
  { rewrite Hh1, Hh2. unfold screening_bytes. rewrite Hp, Hq.
    by rewrite (prefix_buffer_take fp fq). }
  exists (bytesHash f1), (filter (λ f, bytesHash f = bytesHash f1) recs), f1, f2.
  assert (f1 ∈ recs) as Hin1 by (apply list_elem_of_lookup; eauto).
  assert (f2 ∈ recs) as Hin2 by (apply list_elem_of_lookup; eauto).
  assert (f1 ∈ filter (λ f, bytesHash f = bytesHash f1) recs) as Hg1
    by (by apply list_elem_of_filter).
  split; [| split; [done | split; [done | split; [by apply list_elem_of_filter | done]]]].
  apply Prune_lookup. split.
  - apply Hchar. split; [done |]. intros Hnil. rewrite Hnil in Hg1.
    by apply elem_of_nil in Hg1.
  - by apply (filter_length_two _ recs i j f1 f2).
Qed.

Lemma same_prefix_same_group_witness :
  ∃ st, NewPathStore sample_Hash64 sample_fs ["D"; "C"; "E"] 5 = Returns (st, None)
        ∧ ∃ k g f1 f2,
            paths (Prune st).1 !! k = Some g
            ∧ f1 ∈ g ∧ path f1 = "D"
            ∧ f2 ∈ g ∧ path f2 = "E".
Proof.
  eexists. split; [vm_compute; reflexivity |].
  eapply (same_prefix_same_group sample_Hash64 sample_fs ["D"; "C"; "E"] 5 _ 0 2 "D" "E");
    [vm_compute; reflexivity | lia | reflexivity | reflexivity
    | reflexivity | reflexivity | reflexivity].
Defined.

(** ** [fileCheck] and [dirWalk] *)

Lemma fileCheck_fold (calls : list (string * (error + FileInfo))) (paths : list string) :
  foldl (λ paths c, fileCheck paths c.1 c.2) paths calls
  = paths ++ (filter (λ c, walk_keeps c = true) calls).*1.
Proof.
  revert paths. induction calls as [| [name arg] calls IH]; intros paths.
  - cbn. by rewrite app_nil_r.
  - cbn [foldl fst snd]. rewrite IH, filter_cons. unfold fileCheck.
    destruct (decide (walk_keeps (name, arg) = true)) as [Hk | Hk];
      unfold walk_keeps in Hk; cbn [snd] in Hk; destruct arg as [e | info]; try done.
    + destruct (IsDir info || ModeSymlink info); [done |].
      cbn [fmap list_fmap fst]. by rewrite <- app_assoc.
    + destruct (IsDir info || ModeSymlink info); [done |]. by destruct Hk.
Qed.

(** X16. [dirWalk] returns, in the order of the walk, exactly the paths the
    walk met without an error that are neither directories nor symbolic
    links, and never an error of its own. *)
Theorem dirWalk_keeps (env : Env) (start : string) :
  dirWalk env start
  = ((filter (λ c, walk_keeps c = true) (env_walk env start)).*1, None)
  ∧ ∀ p, p ∈ (dirWalk env start).1 ↔
         ∃ info, (p, inr info) ∈ env_walk env start
                 ∧ IsDir info = false ∧ ModeSymlink info = false.
Proof.
  assert (dirWalk env start
          = ((filter (λ c, walk_keeps c = true) (env_walk env start)).*1, None)) as Heq.
  { unfold dirWalk. by rewrite fileCheck_fold. }
  split; [done |]. intros p. rewrite Heq. cbn [fst].
  rewrite list_elem_of_fmap. split.
  - intros ([name [e | info]] & -> & [Hkeep Hin]%list_elem_of_filter); [done |].
    exists info. split; [done |]. unfold walk_keeps in Hkeep. cbn in Hkeep.
    by destruct (IsDir info), (ModeSymlink info).
  - intros (info & Hin & Hd & Hl). exists (p, inr info). split; [done |].
    apply list_elem_of_filter. split; [| done].
    unfold walk_keeps. cbn. by rewrite Hd, Hl.
Qed.

(** ** The two modes of [main], side by side *)

(** X17. The stdin mode files its paths as the directory mode would with
    [-bytes 0], whatever [-bytes] is, and prunes once more than it: on the
    same paths, [bytesMatch] of the stdin mode is the pruned [bytesMatch] of
    the directory mode run with [-bytes 0], after the line announcing the
    mode; errors and panics are the same. *)
Theorem stdin_mode_as_directory_mode (Hash64 : list byte → Z → Z) (env : Env)
    (flags_s flags_d : Flags) :
  flag_stdin flags_s = true →
  flag_stdin flags_d = false →
  flag_bytes flags_d = 0 →
  (dirWalk env (flag_path flags_d)).1 = env_stdin env →
  main_bytesMatch Hash64 flags_s env
  = proc_bind (Println "getting paths from stdin")
      (λ _, proc_bind (main_bytesMatch Hash64 flags_d env)
              (λ st, proc_ret (Prune st).1)).
Proof.
  intros Hs Hd Hbytes Hpaths. rewrite !main_bytesMatch_eq.
  unfold main_inputs, main_buffSize, main_banner. rewrite Hs, Hd, Hbytes, Hpaths.
  by destruct (NewPathStore Hash64 (env_fs env) (env_stdin env) 0) as [[st [e |]] | m].
Qed.

Lemma stdin_mode_as_directory_mode_witness :
  main_bytesMatch sample_Hash64 (mkFlags true "" 1 4096 false) sample_env
  = proc_bind (Println "getting paths from stdin")
      (λ _, proc_bind (main_bytesMatch sample_Hash64 (mkFlags false "." 1 0 false)
                         sample_env)
              (λ st, proc_ret (Prune st).1)).
Proof.
  apply (stdin_mode_as_directory_mode sample_Hash64 sample_env
           (mkFlags true "" 1 4096 false) (mkFlags false "." 1 0 false));
    reflexivity.
Defined.

(** X18. In the stdin mode the first two summaries are one and the same
    line: [fromSTDIn] has pruned the store already, so the pruning in [main]
    changes nothing, and the stage that follows is fed [bytesMatch] itself. *)
Theorem stdin_mode_summaries (Hash64 : list byte → Z → Z) (flags : Flags) (env : Env)
    out (bytesMatch newStore : PathStore) :
  flag_stdin flags = true →
  main_screening Hash64 flags env = (out, inr (bytesMatch, newStore)) →
  newStore = bytesMatch
  ∧ ∃ s, Summarize bytesMatch = Returns s
         ∧ out = ["getting paths from stdin"; s; s; "got the hashed map"].
Proof.
  intros Hstdin Hscreen.
  apply main_screening_inv in Hscreen as (out0 & s1 & s2 & Hbm & -> & Hs1 & Hs2 & ->).
  apply main_bytesMatch_inv in Hbm. rewrite Hstdin in Hbm.
  destruct Hbm as (themap & _ & -> & ->).
  rewrite Prune_twice in Hs2 |- *. split; [done |].
  exists s1. split; [done |]. by assert (s2 = s1) as -> by congruence.
Qed.

Lemma stdin_mode_summaries_witness :
  ∃ out bytesMatch newStore,
    main_screening sample_Hash64 (mkFlags true "" 1 4096 false) sample_env
    = (out, inr (bytesMatch, newStore))
    ∧ newStore = bytesMatch
    ∧ ∃ s, Summarize bytesMatch = Returns s
           ∧ out = ["getting paths from stdin"; s; s; "got the hashed map"].
Proof.
  eexists _, _, _. split; [vm_compute; reflexivity |].
  apply (stdin_mode_summaries sample_Hash64 (mkFlags true "" 1 4096 false) sample_env);
    [reflexivity | vm_compute; reflexivity].
Defined.


